(** * Ledger: a replicated key/value store over an append-only block log

    Shallow embedding of [src/main.js] (class [Ledger]).  The collaborators
    [Chain] (./chain) and [Node] (./node) are not part of the sources: their
    operations are taken as parameters, or, where a statement needs a
    concrete store, modelled from the specification (each such definition
    says so).

    The accessors [put], [get], [get_history] and [get_all] are identical in
    [src/main.js] and [src/unnamed/part_000]; the message handlers are
    embedded from [src/main.js]. *)

From Stdlib Require Import ZArith Lia.
From stdpp Require Import base option list strings gmap.

Open Scope string_scope.
Open Scope list_scope.

(** ** Data model *)

(** JavaScript values stored under a key. *)
Inductive Value :=
| VUndefined
| VNum (z : Z)
| VStr (s : string)
| VBool (b : bool).

(** The payload [{ key, value }] of a block.  Keys are strings, on which
    JavaScript's [===] is equality. *)
Record Data := { key : string; value : Value }.

(** A block as the ledger sees it: [block_id] and [data].  A block that
    arrived from a peer may lack [data]; reading [block.data.key] then
    raises a [TypeError]. *)
Record Block := { block_id : string; data : option Data }.

Inductive Error :=
| TypeError (msg : string)
| StoreError (msg : string).

(** The inventory of a chain, as exchanged between peers: the identities of
    the blocks held. *)
Definition BlockMap := list string.

(** Targets and payloads of [node.send]. *)
Inductive Target :=
| ToPeer (id : string)
| Channel (chan : string).

Inductive Payload :=
| PLength (n : nat)
| PRequest (what : string)
| PBlockMap (m : BlockMap)
| PBlockId (id : string)
| PBlock (b : Block)
| PKey (k : string).

Record Sent := { target : Target; payload : Payload }.

(** What a method hands back to its caller. *)
Inductive JsResult :=
| JUndefined
| JStr (s : string)
| JData (d : Data)
| JList (l : list Data)
| JBlock (b : Block).

(** One entry of [this.chain_lengths]: [{ id, length }]. *)
Record Report := { peer : string; reported : nat }.

(** The state of a [Ledger] instance, together with the two effect logs of
    its environment: [sent] lists the calls of [this.node.send] and
    [timers] the calls of [setTimeout(() => this.get(key), delay)], both in
    call order.  [peers] is the directory held by [this.node.core]. *)
Record Ledger := {
  name : string;
  chain : list Block;
  chain_lengths : list Report;
  missing_blocks : list string;
  received_blocks : list Block;
  errors : list Error;
  retries : nat;
  tries : nat;
  peers : list string;
  sent : list Sent;
  timers : list (nat * string)
}.

Definition set_chain (bs : list Block) (st : Ledger) : Ledger :=
  {| name := name st; chain := bs; chain_lengths := chain_lengths st;
     missing_blocks := missing_blocks st; received_blocks := received_blocks st;
     errors := errors st; retries := retries st; tries := tries st;
     peers := peers st; sent := sent st; timers := timers st |}.

Definition set_chain_lengths (l : list Report) (st : Ledger) : Ledger :=
  {| name := name st; chain := chain st; chain_lengths := l;
     missing_blocks := missing_blocks st; received_blocks := received_blocks st;
     errors := errors st; retries := retries st; tries := tries st;
     peers := peers st; sent := sent st; timers := timers st |}.

Definition set_missing_blocks (l : list string) (st : Ledger) : Ledger :=
  {| name := name st; chain := chain st; chain_lengths := chain_lengths st;
     missing_blocks := l; received_blocks := received_blocks st;
     errors := errors st; retries := retries st; tries := tries st;
     peers := peers st; sent := sent st; timers := timers st |}.

Definition set_received_blocks (l : list Block) (st : Ledger) : Ledger :=
  {| name := name st; chain := chain st; chain_lengths := chain_lengths st;
     missing_blocks := missing_blocks st; received_blocks := l;
     errors := errors st; retries := retries st; tries := tries st;
     peers := peers st; sent := sent st; timers := timers st |}.

Definition set_errors (l : list Error) (st : Ledger) : Ledger :=
  {| name := name st; chain := chain st; chain_lengths := chain_lengths st;
     missing_blocks := missing_blocks st; received_blocks := received_blocks st;
     errors := l; retries := retries st; tries := tries st;
     peers := peers st; sent := sent st; timers := timers st |}.

Definition set_tries (n : nat) (st : Ledger) : Ledger :=
  {| name := name st; chain := chain st; chain_lengths := chain_lengths st;
     missing_blocks := missing_blocks st; received_blocks := received_blocks st;
     errors := errors st; retries := retries st; tries := n;
     peers := peers st; sent := sent st; timers := timers st |}.

Definition set_sent (l : list Sent) (st : Ledger) : Ledger :=
  {| name := name st; chain := chain st; chain_lengths := chain_lengths st;
     missing_blocks := missing_blocks st; received_blocks := received_blocks st;
     errors := errors st; retries := retries st; tries := tries st;
     peers := peers st; sent := l; timers := timers st |}.

Definition set_timers (l : list (nat * string)) (st : Ledger) : Ledger :=
  {| name := name st; chain := chain st; chain_lengths := chain_lengths st;
     missing_blocks := missing_blocks st; received_blocks := received_blocks st;
     errors := errors st; retries := retries st; tries := tries st;
     peers := peers st; sent := sent st; timers := l |}.

(** ** Computations that may throw *)

Inductive Completion (A : Type) :=
| Normal (a : A)
| Throw (e : Error).
Arguments Normal {A} a.
Arguments Throw {A} e.

(** A method body: it reads and writes the instance and either completes
    with a value or throws. *)
Definition M (A : Type) := Ledger -> Completion A * Ledger.

Definition ret {A} (a : A) : M A := fun st => (Normal a, st).

Definition bind {A B} (c : M A) (k : A -> M B) : M B :=
  fun st =>
    match c st with
    | (Normal a, st') => k a st'
    | (Throw e, st') => (Throw e, st')
    end.

Definition throw {A} (e : Error) : M A := fun st => (Throw e, st).

Definition lift {A} (c : Completion A) : M A := fun st => (c, st).

Definition read : M Ledger := fun st => (Normal st, st).

Definition modify (f : Ledger -> Ledger) : M unit := fun st => (Normal tt, f st).

(** [try { body } catch (error) { handler(error) }] *)
Definition try_catch {A} (body : M A) (handler : Error -> M A) : M A :=
  fun st =>
    match body st with
    | (Normal a, st') => (Normal a, st')
    | (Throw e, st') => handler e st'
    end.

Notation "x <~ c ;; k" := (bind c (fun x => k))
  (at level 100, c at next level, right associativity).
Notation "c ;;; k" := (bind c (fun _ => k))
  (at level 100, right associativity).

(** [this.node.send(target, payload)] *)
Definition node_send (t : Target) (p : Payload) : M unit :=
  modify (fun st => set_sent (sent st ++ [{| target := t; payload := p |}]) st).

(** [setTimeout(() => this.get(key), delay)] *)
Definition setTimeout_get (k : string) (delay : nat) : M unit :=
  modify (fun st => set_timers (timers st ++ [(delay, k)]) st).

(** ** Array scans with a predicate that may throw *)

(** [array.find(p)] *)
Fixpoint find_c {A} (p : A -> Completion bool) (l : list A) : Completion (option A) :=
  match l with
  | [] => Normal None
  | x :: l' =>
      match p x with
      | Throw e => Throw e
      | Normal true => Normal (Some x)
      | Normal false => find_c p l'
      end
  end.

(** [array.filter(p)] *)
Fixpoint filter_c {A} (p : A -> Completion bool) (l : list A) : Completion (list A) :=
  match l with
  | [] => Normal []
  | x :: l' =>
      match p x with
      | Throw e => Throw e
      | Normal keep =>
          match filter_c p l' with
          | Throw e => Throw e
          | Normal r => Normal (if keep then x :: r else r)
          end
      end
  end.

Definition undefined_key : Error :=
  TypeError "Cannot read properties of undefined (reading 'key')".

(** [block => block.data.key === key] *)
Definition key_is (k : string) (b : Block) : Completion bool :=
  match data b with
  | None => Throw undefined_key
  | Some d => Normal (bool_decide (key d = k))
  end.

(** ** The accessors *)

Definition unable_to_find : string := "unable to find.".

(** [get(key)], the body of its [try] block. *)
Definition get_body (k : string) : M JsResult :=
  st <~ read ;;
  found <~ lift (find_c (key_is k) (rev (chain st))) ;;
  match found with
  | Some b =>
      modify (set_tries 0) ;;;
      ret (match data b with Some d => JData d | None => JUndefined end)
  | None =>
      if bool_decide (tries st < retries st) then
        modify (fun s => set_tries (S (tries s)) s) ;;;
        node_send (Channel "request") (PKey k) ;;;
        s <~ read ;;
        setTimeout_get k (tries s * 500) ;;;
        ret JUndefined
      else ret (JStr unable_to_find)
  end.

(** [catch (error) { this.errors.push(error) }]: the method then falls off
    its end and returns [undefined]. *)
Definition log_error (e : Error) : M JsResult :=
  modify (fun st => set_errors (errors st ++ [e]) st) ;;;
  ret JUndefined.

Definition get (k : string) : M JsResult :=
  try_catch (get_body k) log_error.

(** [get_history(key)] *)
Definition get_history_body (k : string) : M JsResult :=
  st <~ read ;;
  matching <~ lift (filter_c (key_is k) (chain st)) ;;
  ret (JList (omap data matching)).

Definition get_history (k : string) : M JsResult :=
  try_catch (get_history_body k) log_error.

(** The callback of [entries.filter] in [get_all], with the set [latest]
    threaded through the traversal. *)
Fixpoint filter_latest (latest : gset string) (entries : list (option Data))
  : Completion (list Data) :=
  match entries with
  | [] => Normal []
  | None :: _ => Throw undefined_key
  | Some entry :: rest =>
      let isDuplicate := bool_decide (key entry ∈ latest) in
      match filter_latest ({[key entry]} ∪ latest) rest with
      | Throw e => Throw e
      | Normal r => Normal (if isDuplicate then r else entry :: r)
      end
  end.

(** [get_all()] *)
Definition get_all_body : M JsResult :=
  st <~ read ;;
  let entries := rev (map data (chain st)) in
  latest_entries <~ lift (filter_latest ∅ entries) ;;
  ret (JList latest_entries).

Definition get_all : M JsResult :=
  try_catch get_all_body log_error.

(** ** The store and the message handlers *)

(** What a handler of the catch-all channel receives: a value that is not
    an object, [null], or an object, of which the handler reads the
    properties [length], [request] and [block_map]. *)
Inductive Incoming :=
| INotObject
| INull
| IObject (length_ : option nat) (request : option string) (block_map : option BlockMap).

Definition undefined_getPeers : Error :=
  TypeError "Cannot read properties of undefined (reading 'getPeers')".

Definition null_length : Error :=
  TypeError "Cannot read properties of null (reading 'length')".

(** [this.core], as the catch-all handler reads it.  The constructor assigns
    [name], [chain], [node], [chain_lengths], [missing_blocks],
    [received_blocks], the five helper closures, [errors], [retries] and
    [tries]; no property [core] exists on a [Ledger] (the peer directory is
    [this.node.core], as the connect hook writes it), so the lookup yields
    [undefined]. *)
Definition this_core (st : Ledger) : option (list string) := None.

(** [this.node.core], whose [getPeers()] has one entry per connected peer. *)
Definition this_node_core (st : Ledger) : option (list string) := Some (peers st).

(** Modelled from the spec: [this.chain.length] ([Chain] is not under
    src/); the length of the store is its block count. *)
Definition chain_length (st : Ledger) : nat := length (chain st).

(** [array.forEach(f)] *)
Fixpoint forEach {A} (f : A -> M unit) (l : list A) : M unit :=
  match l with
  | [] => ret tt
  | x :: l' => f x ;;; forEach f l'
  end.

(** [block => block.block_id === block_id] *)
Definition id_is (id : string) (b : Block) : Completion bool :=
  Normal (bool_decide (block_id b = id)).

Section Store.

(** The operations of [Chain] that the ledger calls.  [chain_put] may
    throw, and returns the blocks it leaves behind in either case. *)
Variable chain_put : Data -> list Block -> Completion Block * list Block.
Variable chain_add : Block -> list Block -> list Block.
Variable chain_merge : list Block -> list Block -> list Block.
Variable chain_compare : BlockMap -> list Block -> list string.
Variable chain_mapBlocks : list Block -> BlockMap.
Variable sortBlocks : list Block -> list Block.

(** [put(key, value)] *)
Definition put (k : string) (v : Value) : M JsResult :=
  block <~ (fun st =>
              let '(c, bs) := chain_put {| key := k; value := v |} (chain st) in
              (c, set_chain bs st)) ;;
  node_send (Channel "block") (PBlock block) ;;;
  ret (JBlock block).

Definition requestMissingBlocks (block_map : BlockMap) : M unit :=
  modify (fun st => set_missing_blocks (chain_compare block_map (chain st)) st) ;;;
  st <~ read ;;
  forEach (fun id => node_send (Channel "request_block") (PBlockId id))
          (missing_blocks st).

Definition respondBlockMap (id : string) : M unit :=
  st <~ read ;;
  node_send (ToPeer id) (PBlockMap (chain_mapBlocks (chain st))).

Definition requestBlockMap (id : string) : M unit :=
  node_send (ToPeer id) (PRequest "block_map").

Definition addChainLength (id : string) (len : nat) : M unit :=
  modify (fun st =>
    set_chain_lengths (chain_lengths st ++ [{| peer := id; reported := len |}]) st).

Definition selectChain (c : Report) : M unit :=
  st <~ read ;;
  if bool_decide (chain_length st < reported c) then requestBlockMap (peer c)
  else ret tt.

(** The connect hook: send the chain length to the new peer. *)
Definition on_connect (id : string) : M unit :=
  st <~ read ;;
  node_send (ToPeer id) (PLength (length (chain st))).

(** The first statement of the catch-all handler: the dispatch on the
    payload, [if (typeof data === 'object') { ... }]. *)
Definition dispatch_payload (d : Incoming) (id : string) : M unit :=
  match d with
  | INotObject => ret tt
  | INull => throw null_length
  | IObject len req bm =>
      match len with
      | Some (S n) => addChainLength id (S n)
      | _ =>
          if bool_decide (req = Some "block_map") then respondBlockMap id
          else match bm with
               | Some m => requestMissingBlocks m
               | None => ret tt
               end
      end
  end.

(** The handler of the catch-all channel [{ from: "" }], over the way the
    peer directory is reached: the dispatch, then the comparison of the
    number of reports with the number of peers. *)
Definition on_from_any_with (core : Ledger -> option (list string))
    (d : Incoming) (id : string) : M unit :=
  dispatch_payload d id ;;;
  st <~ read ;;
  match core st with
  | None => throw undefined_getPeers
  | Some directory =>
      if bool_decide (length directory <= length (chain_lengths st)) then
        forEach selectChain (chain_lengths st)
      else ret tt
  end.

(** The handler as written: it reads [this.core.getPeers()]. *)
Definition on_from_any : Incoming -> string -> M unit :=
  on_from_any_with this_core.

(** [listen("request_block", ...)] *)
Definition on_request_block (id : string) (from : string) : M unit :=
  st <~ read ;;
  if bool_decide (from <> name st) then
    found <~ lift (find_c (id_is id) (rev (chain st))) ;;
    match found with
    | Some b => node_send (Channel "block") (PBlock b)
    | None => ret tt
    end
  else ret tt.

(** [listen("requested_block", ...)] *)
Definition on_requested_block (block : Block) (from : string) : M unit :=
  st <~ read ;;
  (if bool_decide (from <> name st) then
     modify (fun s => set_received_blocks (received_blocks s ++ [block]) s) ;;;
     modify (fun s => set_chain (chain_add block (chain s)) s)
   else ret tt) ;;;
  s <~ read ;;
  if bool_decide (length (missing_blocks s) = length (received_blocks s)) then
    modify (fun s => set_chain (sortBlocks (chain s)) s) ;;;
    modify (set_missing_blocks []) ;;;
    modify (set_received_blocks [])
  else ret tt.

(** [listen("block", ...)] *)
Definition on_block (block : Block) (from : string) : M unit :=
  st <~ read ;;
  if bool_decide (from <> name st) then
    modify (fun s => set_chain (chain_add block (chain s)) s)
  else ret tt.

(** [listen("chain", ...)] *)
Definition on_chain (blocks : list Block) (from : string) : M unit :=
  st <~ read ;;
  if bool_decide (from <> name st) then
    modify (fun s => set_chain (chain_merge blocks (chain s)) s)
  else ret tt.

(** [listen("request", ...)] *)
Definition on_request (k : string) (from : string) : M unit :=
  st <~ read ;;
  if bool_decide (from <> name st) then
    found <~ lift (find_c (key_is k) (rev (chain st))) ;;
    match found with
    | Some b => node_send (Channel "block") (PBlock b)
    | None => ret tt
    end
  else ret tt.

(** Everything that can run on a ledger: a call of one of its methods or
    the delivery of a message to one of its handlers. *)
Inductive Call :=
| CPut (k : string) (v : Value)
| CGet (k : string)
| CGetHistory (k : string)
| CGetAll
| OnConnect (id : string)
| OnFromAny (d : Incoming) (id : string)
| OnRequestBlock (id from : string)
| OnRequestedBlock (b : Block) (from : string)
| OnBlock (b : Block) (from : string)
| OnChain (bs : list Block) (from : string)
| OnRequest (k from : string).

Definition handler (h : M unit) : M JsResult := h ;;; ret JUndefined.

Definition run (c : Call) : M JsResult :=
  match c with
  | CPut k v => put k v
  | CGet k => get k
  | CGetHistory k => get_history k
  | CGetAll => get_all
  | OnConnect id => handler (on_connect id)
  | OnFromAny d id => handler (on_from_any d id)
  | OnRequestBlock id from => handler (on_request_block id from)
  | OnRequestedBlock b from => handler (on_requested_block b from)
  | OnBlock b from => handler (on_block b from)
  | OnChain bs from => handler (on_chain bs from)
  | OnRequest k from => handler (on_request k from)
  end.

Fixpoint run_all (cs : list Call) (st : Ledger) : Ledger :=
  match cs with
  | [] => st
  | c :: cs' => run_all cs' (snd (run c st))
  end.

(** A call of [get] that scores a local hit. *)
Definition get_hits (c : Call) (st : Ledger) : bool :=
  match c with
  | CGet k => match fst (get k st) with
              | Normal (JData _) => true
              | _ => false
              end
  | _ => false
  end.

(** No call of the sequence [cs], run from [st], is a [get] that hits. *)
Fixpoint no_hit (cs : list Call) (st : Ledger) : Prop :=
  match cs with
  | [] => True
  | c :: cs' => get_hits c st = false /\ no_hit cs' (snd (run c st))
  end.

(** The blocks of [msgs] that were not sent by [self]. *)
Fixpoint from_others (self : string) (msgs : list (Block * string)) : list Block :=
  match msgs with
  | [] => []
  | (b, from) :: rest =>
      if decide (from = self) then from_others self rest
      else b :: from_others self rest
  end.

(** [chain.add] of each block in turn. *)
Definition add_all (bs : list Block) (blocks : list Block) : list Block :=
  fold_left (fun acc b => chain_add b acc) bs blocks.

(** What the handler does before it compares the two counts. *)
Definition received_after (b : Block) (from : string) (st : Ledger) : list Block :=
  if decide (from = name st) then received_blocks st else received_blocks st ++ [b].

Definition chain_after (b : Block) (from : string) (st : Ledger) : list Block :=
  if decide (from = name st) then chain st else chain_add b (chain st).

(** The delivery of the messages [msgs], each a block with the name of its
    sender, to the ["requested_block"] handler. *)
Fixpoint deliver (msgs : list (Block * string)) (st : Ledger) : Ledger :=
  match msgs with
  | [] => st
  | (b, from) :: rest => deliver rest (snd (on_requested_block b from st))
  end.

End Store.

(** The instance built by [new Ledger(name)] for a name that is kept, over
    the blocks of a new [Chain] and the peers the node knows. *)
Definition new_Ledger (nm : string) (blocks : list Block) (known : list string) : Ledger :=
  {| name := nm; chain := blocks; chain_lengths := []; missing_blocks := [];
     received_blocks := []; errors := []; retries := 3; tries := 0;
     peers := known; sent := []; timers := [] |}.

(** [this.name = name ? name : randomUUID()]: a missing or empty name is
    replaced by the identifier [uuid] that [randomUUID()] returns. *)
Definition construct (nm : option string) (uuid : string)
    (blocks : list Block) (known : list string) : Ledger :=
  new_Ledger (match nm with
              | Some n => if decide (n = "") then uuid else n
              | None => uuid
              end) blocks known.

(** Modelled from the spec: [Chain.put] ([Chain] is not under src/).
    "append(payload): creates and stores a new block, returns it"; the
    block count grows by exactly one per call and no stored block changes.
    The identifier of the new block is left to [fresh_id]. *)
Definition Chain_put (fresh_id : list Block -> Data -> string)
    (d : Data) (blocks : list Block) : Completion Block * list Block :=
  let b := {| block_id := fresh_id blocks d; data := Some d |} in
  (Normal b, blocks ++ [b]).

(** ** The handlers of the other copy of the class *)

(** [src/unnamed/part_000] differs from [src/main.js] in two handlers: it
    keeps no list of reports and no lists of missing and received blocks,
    but a single [target_length].  The catch-all handler asks for the block
    map as soon as one report exceeds the local length, and the
    ["requested_block"] handler sorts whenever the local length has
    reached [target_length]. *)
Module Part000.

Record State := {
  base : Ledger;
  target_length : option nat
}.

Definition on_base {A} (m : M A) (s : State) : Completion A * State :=
  let '(c, l) := m (base s) in
  (c, {| base := l; target_length := target_length s |}).

Section Store.

Variable chain_add : Block -> list Block -> list Block.
Variable chain_compare : BlockMap -> list Block -> list string.
Variable chain_mapBlocks : list Block -> BlockMap.
Variable sortBlocks : list Block -> list Block.

(** The catch-all handler. *)
Definition on_from_any (d : Incoming) (id : string) (s : State)
  : Completion unit * State :=
  let otherwise req bm :=
    if bool_decide (req = Some "block_map") then
      on_base (respondBlockMap chain_mapBlocks id) s
    else match bm with
         | Some m =>
             on_base (forEach (fun b => node_send (Channel "request_block") (PBlockId b))
                        (chain_compare m (chain (base s)))) s
         | None => (Normal tt, s)
         end in
  match d with
  | INotObject => (Normal tt, s)
  | INull => (Throw null_length, s)
  | IObject (Some n) req bm =>
      if bool_decide (chain_length (base s) < n) then
        on_base (requestBlockMap id) {| base := base s; target_length := Some n |}
      else otherwise req bm
  | IObject None req bm => otherwise req bm
  end.

(** [listen("requested_block", ...)]; a comparison with an undefined
    [target_length] is false. *)
Definition on_requested_block (block : Block) (from : string) (s : State)
  : Completion unit * State :=
  let l := base s in
  let l1 := if bool_decide (from <> name l) then set_chain (chain_add block (chain l)) l
            else l in
  let l2 := match target_length s with
            | Some t => if bool_decide (t <= chain_length l1)
                        then set_chain (sortBlocks (chain l1)) l1 else l1
            | None => l1
            end in
  (Normal tt, {| base := l2; target_length := target_length s |}).

End Store.

End Part000.

(** ** Retry chains of [get] *)

(** [get(key)] followed by the retries it schedules.  Each retry fires
    after the environment has had its turn: [worlds] lists the blocks the
    store holds when the successive retries fire.  [None] means that a
    retry is still pending when [worlds] runs out.  The first component is
    the value the caller of [get] received, the second the values the
    retries returned to the timer. *)
Fixpoint retry_chain (k : string) (worlds : list (list Block)) (st : Ledger)
  : option (list (Completion JsResult) * Ledger) :=
  let '(r, st1) := get k st in
  if bool_decide (length (timers st) < length (timers st1)) then
    match worlds with
    | [] => None
    | w :: worlds' =>
        match retry_chain k worlds' (set_chain w st1) with
        | None => None
        | Some (rs, st2) => Some (r :: rs, st2)
        end
    end
  else Some ([r], st1).

(** * Vocabulary of the statements *)

(** ** Stores and scans *)

(** Every block carries [data]. *)
Definition well_formed (bs : list Block) : Prop :=
  Forall (fun b => is_Some (data b)) bs.

(** No block of [bs] holds the key [k]: every block carries data, under
    another key. *)
Definition absent (k : string) (bs : list Block) : Prop :=
  Forall (fun b => exists d, data b = Some d /\ key d <> k) bs.

(** The newest-first scan of [get]. *)
Definition scan (k : string) (st : Ledger) : Completion (option Block) :=
  find_c (key_is k) (rev (chain st)).

(** The data of the store, newest block first. *)
Definition newest_first (bs : list Block) : list Data := rev (omap data bs).

(** ** Outcomes of reads and writes *)

Definition key_request (k : string) : Sent :=
  {| target := Channel "request"; payload := PKey k |}.

(** The state a miss within budget leaves behind. *)
Definition after_miss (k : string) (st : Ledger) : Ledger :=
  set_timers (timers st ++ [(S (tries st) * 500, k)])
    (set_sent (sent st ++ [key_request k])
       (set_tries (S (tries st)) st)).

(** The delays of [n] successive retries after [t] attempts. *)
Definition retry_delays (k : string) (t n : nat) : list (nat * string) :=
  map (fun i => (i * 500, k)) (seq (S t) n).

(** The outcome the specification gives for a read chain that never finds
    its key under a budget of 3: exactly three key requests, retries after
    500, 1000 and 1500 ms, the values [undefined] (to the caller and to the
    first two timers) and at last the sentinel, nothing thrown or logged,
    and no retry left pending. *)
Definition three_requests_then_sentinel
    (k : string) (worlds : list (list Block)) (st : Ledger) : Prop :=
  exists st',
    retry_chain k worlds st =
      Some ([Normal JUndefined; Normal JUndefined; Normal JUndefined;
             Normal (JStr "unable to find.")], st') /\
    sent st' = sent st ++ [key_request k; key_request k; key_request k] /\
    timers st' = timers st ++ [(500, k); (1000, k); (1500, k)] /\
    errors st' = errors st.

(** The block [Chain_put] creates for [{ key, value }] on top of [bs]. *)
Definition new_block (fresh_id : list Block -> Data -> string)
    (k : string) (v : Value) (bs : list Block) : Block :=
  {| block_id := fresh_id bs {| key := k; value := v |};
     data := Some {| key := k; value := v |} |}.

Definition block_broadcast (b : Block) : Sent :=
  {| target := Channel "block"; payload := PBlock b |}.

(** A run of [put] calls, one per pair of [kvs]. *)
Fixpoint put_all (fresh_id : list Block -> Data -> string)
    (kvs : list (string * Value)) (st : Ledger) : Ledger :=
  match kvs with
  | [] => st
  | kv :: kvs' => put_all fresh_id kvs' (snd (put (Chain_put fresh_id) (fst kv) (snd kv) st))
  end.

(** ** The wording of the specification *)

(** The data of the blocks of [bs] that hold the key [k], in the order of
    [bs]. *)
Fixpoint history (k : string) (bs : list Block) : list Data :=
  match bs with
  | [] => []
  | b :: bs' =>
      match data b with
      | Some d => if decide (key d = k) then d :: history k bs' else history k bs'
      | None => history k bs'
      end
  end.

Definition other_key (k : string) (e : Data) : bool := negb (bool_decide (key e = k)).

Definition has_key (k : string) (e : Data) : bool := bool_decide (key e = k).

Definition unseen (latest : gset string) (e : Data) : bool :=
  negb (bool_decide (key e ∈ latest)).

(** The wording of the specification: walk the entries newest-first, keep
    the first occurrence of each key and drop the later (older) entries
    under that key. *)
Fixpoint first_per_key (entries : list Data) : list Data :=
  match entries with
  | [] => []
  | e :: rest => e :: List.filter (other_key (key e)) (first_per_key rest)
  end.

(** [d1] occurs before [d2] in [l]. *)
Definition before (d1 d2 : Data) (l : list Data) : Prop :=
  exists a b c, l = a ++ d1 :: b ++ d2 :: c.

(** ** Invariants *)

(** A computation that leaves a part [proj] of the instance alone. *)
Definition preserves {A F} (proj : Ledger -> F) (m : M A) : Prop :=
  forall st, proj (snd (m st)) = proj st.

(** The retry counter and the budget. *)
Definition budget (st : Ledger) : nat * nat := (tries st, retries st).

(** ** The gossip round *)

Definition block_map_request (id : string) : Sent :=
  {| target := ToPeer id; payload := PRequest "block_map" |}.

Definition is_block_map_request (m : Sent) : bool :=
  match payload m with
  | PRequest what => bool_decide (what = "block_map")
  | _ => false
  end.

(** The block-map requests among the messages sent so far. *)
Definition block_map_requests (st : Ledger) : list Sent :=
  List.filter is_block_map_request (sent st).

(** The peers of [reports] whose chain is longer than the local one. *)
Definition longer_peers (st : Ledger) (reports : list Report) : list string :=
  map peer (List.filter (fun r => bool_decide (chain_length st < reported r)) reports).

Definition length_report (n : nat) : Incoming := IObject (Some n) None None.

(** ** Example stores *)

(** A store that appends, for the examples. *)
Definition append_put : Data -> list Block -> Completion Block * list Block :=
  Chain_put (fun _ _ => "id").

Definition append_add (b : Block) (bs : list Block) : list Block := bs ++ [b].

(** The instance left behind by a [get("z")] that used up its budget. *)
Definition exhausted_ledger : Ledger :=
  match retry_chain "z" [[]; []; []] (new_Ledger "n" [] ["p"]) with
  | Some (_, st) => st
  | None => new_Ledger "n" [] ["p"]
  end.

Definition four_blocks : list Block :=
  [ {| block_id := "1"; data := Some {| key := "a"; value := VNum 1 |} |};
    {| block_id := "2"; data := Some {| key := "b"; value := VNum 2 |} |};
    {| block_id := "3"; data := Some {| key := "c"; value := VNum 3 |} |};
    {| block_id := "4"; data := Some {| key := "d"; value := VNum 4 |} |} ].

(** ** Calls and what they may write *)

Definition request_block_message (id : string) : Sent :=
  {| target := Channel "request_block"; payload := PBlockId id |}.

Definition block_map_reply (id : string) (m : BlockMap) : Sent :=
  {| target := ToPeer id; payload := PBlockMap m |}.

(** The calls that assign or mutate [this.chain.blocks]. *)
Definition writes_chain (c : Call) : bool :=
  match c with
  | CPut _ _ | OnRequestedBlock _ _ | OnBlock _ _ | OnChain _ _ => true
  | _ => false
  end.

(** The calls that assign [this.missing_blocks]. *)
Definition writes_missing (c : Call) : bool :=
  match c with
  | OnFromAny _ _ | OnRequestedBlock _ _ => true
  | _ => false
  end.

(** The calls with a [catch] that pushes to [this.errors]. *)
Definition is_accessor (c : Call) : bool :=
  match c with
  | CGet _ | CGetHistory _ | CGetAll => true
  | _ => false
  end.

(** No block of [bs] has the identifier [id]. *)
Definition id_absent (id : string) (bs : list Block) : Prop :=
  Forall (fun b => block_id b <> id) bs.

(** The reports of [reports] that exceed the length [len], and the last of
    them, if any, over a previous target. *)
Definition longer_than (len : nat) (reports : list Report) : list Report :=
  List.filter (fun r => bool_decide (len < reported r)) reports.

Definition last_target (previous : option nat) (len : nat) (reports : list Report)
  : option nat :=
  match last (longer_than len reports) with
  | Some r => Some (reported r)
  | None => previous
  end.

(** The delivery of the length reports [reports] to the catch-all handler
    of [src/unnamed/part_000], one after the other. *)
Fixpoint part000_report_all (chain_compare : BlockMap -> list Block -> list string)
    (chain_mapBlocks : list Block -> BlockMap)
    (reports : list Report) (s : Part000.State) : Part000.State :=
  match reports with
  | [] => s
  | r :: rest =>
      part000_report_all chain_compare chain_mapBlocks rest
        (snd (Part000.on_from_any chain_compare chain_mapBlocks
                (length_report (reported r)) (peer r) s))
  end.

(** The delivery of [msgs] to the ["requested_block"] handler of
    [src/unnamed/part_000]. *)
Fixpoint part000_deliver (chain_add : Block -> list Block -> list Block)
    (sortBlocks : list Block -> list Block)
    (msgs : list (Block * string)) (s : Part000.State) : Part000.State :=
  match msgs with
  | [] => s
  | (b, from) :: rest =>
      part000_deliver chain_add sortBlocks rest
        (snd (Part000.on_requested_block chain_add sortBlocks b from s))
  end.

(** ** Read chains among other calls *)

Definition is_key_request (m : Sent) : bool :=
  match payload m with
  | PKey _ => true
  | _ => false
  end.

(** The key requests among the messages sent so far. *)
Definition key_requests (st : Ledger) : list Sent :=
  List.filter is_key_request (sent st).

Section Among.

Variable chain_put : Data -> list Block -> Completion Block * list Block.
Variable chain_add : Block -> list Block -> list Block.
Variable chain_merge : list Block -> list Block -> list Block.
Variable chain_compare : BlockMap -> list Block -> list string.
Variable chain_mapBlocks : list Block -> BlockMap.
Variable sortBlocks : list Block -> list Block.

(** No call of [cs], run from [st], changes the retry counter. *)
Fixpoint calm (cs : list Call) (st : Ledger) : Prop :=
  match cs with
  | [] => True
  | c :: cs' =>
      let st1 := snd (run chain_put chain_add chain_merge chain_compare
                        chain_mapBlocks sortBlocks c st) in
      tries st1 = tries st /\ calm cs' st1
  end.

(** [get(key)] followed by the retries it schedules, among other calls:
    before each retry fires, the calls and deliveries of the next element
    of [gaps] run on the instance.  [None] means that a retry is still
    pending when [gaps] runs out.  The values are those of the call and of
    its retries, in order. *)
Fixpoint retry_among (k : string) (gaps : list (list Call)) (st : Ledger)
  : option (list (Completion JsResult) * Ledger) :=
  let '(r, st1) := get k st in
  if bool_decide (length (timers st) < length (timers st1)) then
    match gaps with
    | [] => None
    | cs :: gaps' =>
        match retry_among k gaps'
                (run_all chain_put chain_add chain_merge chain_compare
                   chain_mapBlocks sortBlocks cs st1) with
        | None => None
        | Some (rs, st2) => Some (r :: rs, st2)
        end
    end
  else Some ([r], st1).

(** The key [k] is absent at the call and at each retry, and no call in
    between changes the retry counter. *)
Fixpoint undisturbed (k : string) (gaps : list (list Call)) (st : Ledger) : Prop :=
  absent k (chain st) /\
  match gaps with
  | [] => True
  | cs :: gaps' =>
      calm cs (snd (get k st)) /\
      undisturbed k gaps'
        (run_all chain_put chain_add chain_merge chain_compare
           chain_mapBlocks sortBlocks cs (snd (get k st)))
  end.

End Among.

(** * Properties *)

(** ** Scans of the store *)

Lemma absent_well_formed k bs : absent k bs -> well_formed bs.
Proof.
  unfold absent, well_formed. intros H. eapply Forall_impl; [exact H |].
  intros b (d & Hd & _). rewrite Hd. eauto.
Qed.

Lemma absent_app k bs1 bs2 : absent k (bs1 ++ bs2) <-> absent k bs1 /\ absent k bs2.
Proof. unfold absent. apply Forall_app. Qed.

Lemma absent_rev k bs : absent k bs -> absent k (rev bs).
Proof. unfold absent. apply Forall_rev. Qed.

Lemma key_is_absent k b :
  (exists d, data b = Some d /\ key d <> k) -> key_is k b = Normal false.
Proof.
  intros (d & Hd & Hk). unfold key_is. rewrite Hd.
  rewrite bool_decide_eq_false_2; auto.
Qed.

Lemma find_absent k bs : absent k bs -> find_c (key_is k) bs = Normal None.
Proof.
  induction 1 as [| b bs Hb _ IH]; simpl; [reflexivity |].
  rewrite (key_is_absent _ _ Hb). exact IH.
Qed.

Lemma find_none_absent k bs : find_c (key_is k) bs = Normal None -> absent k bs.
Proof.
  induction bs as [| b bs IH]; simpl; intros H; [constructor |].
  unfold key_is in H at 1. destruct (data b) as [d |] eqn:Hd; [| discriminate].
  destruct (bool_decide (key d = k)) eqn:Hk; [discriminate |].
  apply bool_decide_eq_false in Hk.
  constructor; [exists d; auto | apply IH; exact H].
Qed.

Lemma scan_absent k st : absent k (chain st) -> scan k st = Normal None.
Proof. intros H. apply find_absent, absent_rev, H. Qed.

(** A miss of the scan is exactly the absence of the key. *)
Lemma scan_none_iff k st : scan k st = Normal None <-> absent k (chain st).
Proof.
  split; [| apply scan_absent].
  intros H. apply find_none_absent in H. apply absent_rev in H.
  rewrite rev_involutive in H. exact H.
Qed.

(** The scan stops at the newest block holding the key, whatever lies
    below it. *)
Lemma find_newest k older b d newer :
  data b = Some d -> key d = k -> absent k newer ->
  find_c (key_is k) (rev (older ++ b :: newer)) = Normal (Some b).
Proof.
  intros Hd Hk Hn. rewrite rev_app_distr. simpl. rewrite <- app_assoc. simpl.
  apply absent_rev in Hn. revert Hn.
  induction (rev newer) as [| c cs IH]; simpl; intros Hn.
  - unfold key_is. rewrite Hd. rewrite bool_decide_eq_true_2; auto.
  - inversion Hn as [| ? ? Hc Hcs]; subst.
    rewrite (key_is_absent _ _ Hc). apply IH, Hcs.
Qed.

Lemma find_some_key k bs b :
  find_c (key_is k) bs = Normal (Some b) ->
  exists d, data b = Some d /\ key d = k.
Proof.
  induction bs as [| c cs IH]; simpl; [discriminate |].
  unfold key_is at 1. destruct (data c) as [d |] eqn:Hd; [| discriminate].
  destruct (bool_decide (key d = k)) eqn:Hk.
  - intros [= <-]. apply bool_decide_eq_true in Hk. eauto.
  - exact IH.
Qed.

(** ** The four outcomes of [get] *)

Lemma get_hit k st b d :
  scan k st = Normal (Some b) -> data b = Some d ->
  get k st = (Normal (JData d), set_tries 0 st).
Proof.
  unfold scan. intros Hs Hd.
  unfold get, try_catch, get_body, bind, read, lift. rewrite Hs.
  unfold modify, ret. rewrite Hd. reflexivity.
Qed.

Lemma get_retry k st :
  scan k st = Normal None -> tries st < retries st ->
  get k st = (Normal JUndefined, after_miss k st).
Proof.
  unfold scan. intros Hs Hlt.
  unfold get, try_catch, get_body, bind, read, lift. rewrite Hs.
  rewrite bool_decide_eq_true_2 by exact Hlt. reflexivity.
Qed.

Lemma get_exhausted k st :
  scan k st = Normal None -> ~ tries st < retries st ->
  get k st = (Normal (JStr unable_to_find), st).
Proof.
  unfold scan. intros Hs Hge.
  unfold get, try_catch, get_body, bind, read, lift. rewrite Hs.
  rewrite bool_decide_eq_false_2 by exact Hge. reflexivity.
Qed.

Lemma get_caught k st e :
  scan k st = Throw e ->
  get k st = (Normal JUndefined, set_errors (errors st ++ [e]) st).
Proof.
  unfold scan. intros Hs.
  unfold get, try_catch, get_body, bind, read, lift. rewrite Hs.
  reflexivity.
Qed.

(** [get] is one of the four. *)
Lemma get_cases k st :
  (exists b d, scan k st = Normal (Some b) /\ data b = Some d /\ key d = k /\
               get k st = (Normal (JData d), set_tries 0 st)) \/
  (scan k st = Normal None /\ tries st < retries st /\
   get k st = (Normal JUndefined, after_miss k st)) \/
  (scan k st = Normal None /\ ~ tries st < retries st /\
   get k st = (Normal (JStr unable_to_find), st)) \/
  (exists e, scan k st = Throw e /\
             get k st = (Normal JUndefined, set_errors (errors st ++ [e]) st)).
Proof.
  destruct (scan k st) as [[b |] | e] eqn:Hs.
  - left. destruct (find_some_key _ _ _ Hs) as (d & Hd & Hk).
    exists b, d. split; [reflexivity |]. split; [exact Hd |].
    split; [exact Hk |]. apply get_hit with b; assumption.
  - destruct (decide (tries st < retries st)) as [Hlt | Hge].
    + right; left. split; [reflexivity |]. split; [exact Hlt |].
      apply get_retry; assumption.
    + right; right; left. split; [reflexivity |]. split; [exact Hge |].
      apply get_exhausted; assumption.
  - right; right; right. exists e. split; [reflexivity |].
    apply get_caught; assumption.
Qed.

(** ** Writes *)

Lemma put_appends fresh_id k v st :
  put (Chain_put fresh_id) k v st =
  (Normal (JBlock (new_block fresh_id k v (chain st))),
   set_sent (sent st ++ [block_broadcast (new_block fresh_id k v (chain st))])
     (set_chain (chain st ++ [new_block fresh_id k v (chain st)]) st)).
Proof. reflexivity. Qed.

Lemma put_all_cons fresh_id k v kvs st :
  put_all fresh_id ((k, v) :: kvs) st =
  put_all fresh_id kvs (snd (put (Chain_put fresh_id) k v st)).
Proof. reflexivity. Qed.

Lemma put_all_chain fresh_id kvs : forall st,
  exists newer,
    chain (put_all fresh_id kvs st) = chain st ++ newer /\
    map data newer = map (fun kv => Some {| key := fst kv; value := snd kv |}) kvs.
Proof.
  induction kvs as [| [k v] kvs IH]; intros st.
  - exists []. simpl. rewrite app_nil_r. auto.
  - destruct (IH (snd (put (Chain_put fresh_id) k v st))) as (newer & Hc & Hd).
    exists (new_block fresh_id k v (chain st) :: newer).
    rewrite put_all_cons, Hc, put_appends. simpl.
    rewrite <- app_assoc. simpl. rewrite Hd. auto.
Qed.

Lemma put_all_tries fresh_id kvs : forall st,
  tries (put_all fresh_id kvs st) = tries st /\
  retries (put_all fresh_id kvs st) = retries st.
Proof.
  induction kvs as [| [k v] kvs IH]; intros st; [simpl; auto |].
  destruct (IH (snd (put (Chain_put fresh_id) k v st))) as [Ht Hr].
  rewrite put_all_cons, Ht, Hr, put_appends. auto.
Qed.

Lemma data_absent k newer (kvs : list (string * Value)) :
  map data newer = map (fun kv => Some {| key := fst kv; value := snd kv |}) kvs ->
  Forall (fun kv => fst kv <> k) kvs ->
  absent k newer.
Proof.
  revert kvs. induction newer as [| b newer IH]; intros kvs Hm Hk.
  - constructor.
  - destruct kvs as [| kv kvs]; [discriminate |].
    simpl in Hm. injection Hm as Hb Hm.
    inversion Hk as [| ? ? Hkv Hkvs]; subst.
    constructor; [| eapply IH; eauto].
    eexists. split; [exact Hb | exact Hkv].
Qed.

Lemma data_well_formed newer (kvs : list (string * Value)) :
  map data newer = map (fun kv => Some {| key := fst kv; value := snd kv |}) kvs ->
  well_formed newer.
Proof.
  revert kvs. induction newer as [| b newer IH]; intros kvs Hm.
  - constructor.
  - destruct kvs as [| kv kvs]; [discriminate |].
    simpl in Hm. injection Hm as Hb Hm.
    constructor; [rewrite Hb; eauto | eapply IH; eauto].
Qed.

(** The shape of the store after [put(k, v)] and writes under other keys. *)
Lemma chain_after_put fresh_id k v others st :
  Forall (fun kv => fst kv <> k) others ->
  exists newer,
    chain (put_all fresh_id others (snd (put (Chain_put fresh_id) k v st))) =
      chain st ++ new_block fresh_id k v (chain st) :: newer /\
    absent k newer /\
    map data newer = map (fun kv => Some {| key := fst kv; value := snd kv |}) others.
Proof.
  intros Ho.
  destruct (put_all_chain fresh_id others (snd (put (Chain_put fresh_id) k v st)))
    as (newer & Hc & Hd).
  exists newer. rewrite Hc, put_appends. simpl. rewrite <- app_assoc. simpl.
  split; [reflexivity |]. split; [eapply data_absent; eauto | exact Hd].
Qed.

(** A read after [put(k, v)] and writes under other keys hits the block of
    that [put]. *)
Lemma get_reads_last_put fresh_id k v others st :
  Forall (fun kv => fst kv <> k) others ->
  let st1 := put_all fresh_id others (snd (put (Chain_put fresh_id) k v st)) in
  get k st1 = (Normal (JData {| key := k; value := v |}), set_tries 0 st1).
Proof.
  intros Ho st1.
  destruct (chain_after_put fresh_id k v others st Ho) as (newer & Hc & Hab & _).
  apply get_hit with (new_block fresh_id k v (chain st)); [| reflexivity].
  unfold scan. fold st1 in Hc. rewrite Hc.
  apply find_newest with {| key := k; value := v |}; auto.
Qed.

(** C5. Local read consistency: [get(k)] after [put(k, v)], with no write
    under [k] in between (writes under other keys may intervene), is a hit
    of the first scan: it returns [{ key: k, value: v }], sends no key
    request, schedules no retry, and leaves the retry counter at zero. *)
Theorem get_after_put fresh_id k v others st :
  Forall (fun kv => fst kv <> k) others ->
  let st1 := put_all fresh_id others (snd (put (Chain_put fresh_id) k v st)) in
  get k st1 = (Normal (JData {| key := k; value := v |}), set_tries 0 st1) /\
  sent (snd (get k st1)) = sent st1 /\
  timers (snd (get k st1)) = timers st1 /\
  tries (snd (get k st1)) = 0.
Proof.
  intros Ho st1.
  pose proof (get_reads_last_put fresh_id k v others st Ho) as Hget.
  fold st1 in Hget. rewrite Hget. auto.
Qed.

Lemma get_after_put_witness :
  let st := new_Ledger "n" [] ["p"] in
  let st1 := put_all (fun _ _ => "id") [("y", VNum 9)]
               (snd (put (Chain_put (fun _ _ => "id")) "x" (VNum 1) st)) in
  get "x" st1 = (Normal (JData {| key := "x"; value := VNum 1 |}), set_tries 0 st1) /\
  sent (snd (get "x" st1)) = sent st1 /\
  timers (snd (get "x" st1)) = timers st1 /\
  tries (snd (get "x" st1)) = 0.
Proof.
  apply (get_after_put (fun _ _ => "id") "x" (VNum 1) [("y", VNum 9)]
           (new_Ledger "n" [] ["p"])).
  repeat constructor. simpl. discriminate.
Defined.

(** C10. [put] is unguarded: when the store's append throws, the exception
    reaches the caller of [put]; no block broadcast is sent and nothing is
    appended to the error log. *)
Theorem put_propagates
    (chain_put : Data -> list Block -> Completion Block * list Block)
    k v st e bs :
  chain_put {| key := k; value := v |} (chain st) = (Throw e, bs) ->
  put chain_put k v st = (Throw e, set_chain bs st) /\
  sent (snd (put chain_put k v st)) = sent st /\
  errors (snd (put chain_put k v st)) = errors st.
Proof.
  intros H. unfold put, bind. rewrite H. auto.
Qed.

Lemma put_propagates_witness :
  let failing := fun (_ : Data) (bs : list Block) =>
                   (@Throw Block (StoreError "append failed"), bs) in
  let st := new_Ledger "n" [] ["p"] in
  put failing "x" (VNum 1) st = (Throw (StoreError "append failed"), set_chain [] st) /\
  sent (snd (put failing "x" (VNum 1) st)) = sent st /\
  errors (snd (put failing "x" (VNum 1) st)) = errors st.
Proof.
  apply (put_propagates
           (fun (_ : Data) (bs : list Block) => (@Throw Block (StoreError "append failed"), bs))
           "x" (VNum 1) (new_Ledger "n" [] ["p"]) (StoreError "append failed") []).
  reflexivity.
Defined.

(** ** Bounded retry *)

Lemma retry_chain_eq k worlds st :
  retry_chain k worlds st =
  (let '(r, st1) := get k st in
   if bool_decide (length (timers st) < length (timers st1)) then
     match worlds with
     | [] => None
     | w :: worlds' =>
         match retry_chain k worlds' (set_chain w st1) with
         | None => None
         | Some (rs, st2) => Some (r :: rs, st2)
         end
     end
   else Some ([r], st1)).
Proof. destruct worlds; reflexivity. Qed.

(** A chain of reads that never finds its key uses up what is left of the
    budget, one key request and one timer per attempt, and ends on the
    sentinel. *)
Lemma retry_chain_misses k : forall n worlds st,
  retries st = tries st + n ->
  absent k (chain st) -> Forall (absent k) worlds -> n <= length worlds ->
  exists st',
    retry_chain k worlds st =
      Some (replicate n (Normal JUndefined) ++ [Normal (JStr unable_to_find)], st') /\
    sent st' = sent st ++ replicate n (key_request k) /\
    timers st' = timers st ++ retry_delays k (tries st) n /\
    tries st' = retries st /\ retries st' = retries st /\ errors st' = errors st.
Proof.
  induction n as [| n IH]; intros worlds st Hr Hab Hws Hlen.
  - exists st. rewrite retry_chain_eq.
    rewrite (get_exhausted k st) by (auto using scan_absent; lia).
    rewrite bool_decide_eq_false_2 by lia.
    unfold retry_delays. simpl. rewrite !app_nil_r. repeat split; auto; lia.
  - destruct worlds as [| w worlds]; [simpl in Hlen; lia |].
    inversion Hws as [| ? ? Hw Hws']; subst.
    destruct (IH worlds (set_chain w (after_miss k st))) as (st' & Hrun & Hs & Ht & Htr & Hre & He);
      [simpl; lia | exact Hw | exact Hws' | simpl in Hlen; lia |].
    exists st'. rewrite retry_chain_eq.
    rewrite (get_retry k st) by (auto using scan_absent; lia).
    rewrite bool_decide_eq_true_2 by (simpl; rewrite length_app; simpl; lia).
    rewrite Hrun. simpl in Hs, Ht, Htr, Hre, He.
    split; [reflexivity |].
    split; [rewrite Hs, <- app_assoc; reflexivity |].
    split; [rewrite Ht, <- app_assoc; reflexivity |].
    auto.
Qed.

(** A read chain that runs alone, only the store changing between its
    attempts: from a counter at zero and a budget of 3, a [get(k)] that
    finds no block under [k] at any attempt sends exactly 3 key requests,
    schedules its 3 retries after 500, 1000 and 1500 ms, and ends on the
    sentinel. *)
Theorem get_bounded_retry k worlds st :
  tries st = 0 -> retries st = 3 ->
  absent k (chain st) -> Forall (absent k) worlds -> 3 <= length worlds ->
  three_requests_then_sentinel k worlds st.
Proof.
  intros Ht Hr Hab Hws Hlen.
  destruct (retry_chain_misses k 3 worlds st) as (st' & Hrun & Hs & Hti & Htr & _ & He);
    [lia | assumption | assumption | assumption |].
  exists st'. rewrite Hrun, Hs, Hti, Ht, He. repeat split.
Qed.

Lemma get_bounded_retry_witness :
  three_requests_then_sentinel "z" [[]; []; []] (new_Ledger "n" [] ["p"]).
Proof.
  apply (get_bounded_retry "z" [[]; []; []] (new_Ledger "n" [] ["p"]));
    [reflexivity | reflexivity | constructor | repeat constructor | simpl; lia].
Defined.

(** C3, as stated, fails in two ways, both because the counter belongs to
    the instance.  On the instance left by a [get("z")] that used up its
    budget, ["q"] is absent and the budget is 3, yet [get("q")] sends no
    key request and schedules no retry: its first scan returns the
    sentinel.  And on a new instance, when a [get("y")] runs between the
    attempts of [get("z")], the reads share the budget: ["z"] is requested
    twice, with delays of 500 and 1500 ms, and its second retry already
    returns the sentinel. *)
Lemma get_bounded_retry_counterexample :
  (retries exhausted_ledger = 3 /\
   absent "q" (chain exhausted_ledger) /\
   Forall (absent "q") [[]; []; []] /\
   retry_chain "q" [[]; []; []] exhausted_ledger =
     Some ([Normal (JStr "unable to find.")], exhausted_ledger) /\
   ~ three_requests_then_sentinel "q" [[]; []; []] exhausted_ledger) /\
  (let run_ := run append_put append_add (fun _ bs => bs) (fun m _ => m)
                 (fun _ => []) (fun bs => bs) in
   let st0 := new_Ledger "n" [] ["p"] in
   let s1 := snd (run_ (CGet "z") st0) in
   let s2 := snd (run_ (CGet "y") s1) in
   let s3 := snd (run_ (CGet "z") s2) in
   let s4 := snd (run_ (CGet "y") s3) in
   tries st0 = 0 /\ retries st0 = 3 /\ chain s4 = [] /\
   sent s4 = [key_request "z"; key_request "y"; key_request "z"] /\
   timers s4 = [(500, "z"); (1000, "y"); (1500, "z")] /\
   run_ (CGet "z") s4 = (Normal (JStr "unable to find."), s4)).
Proof.
  split.
  - split; [reflexivity |]. split; [constructor |].
    split; [repeat constructor |]. split; [reflexivity |].
    intros (st' & Hrun & _). discriminate Hrun.
  - vm_compute. repeat split.
Qed.

(** C9. A miss within budget returns nothing to the caller: [get(k)] sends
    one key request, schedules one retry and returns [undefined].  In every
    read chain that follows, the caller's own value stays [undefined] and
    some later value goes to the timer; and a call of [get] returns a
    visible value only when its scan hits or it finds the budget used up. *)
Theorem get_miss_is_undefined k st :
  absent k (chain st) -> tries st < retries st ->
  get k st = (Normal JUndefined, after_miss k st) /\
  (forall worlds rs st', retry_chain k worlds st = Some (rs, st') ->
     exists later, rs = Normal JUndefined :: later /\ later <> []) /\
  (forall k' s v, fst (get k' s) = Normal v -> v <> JUndefined ->
     (exists b d, scan k' s = Normal (Some b) /\ data b = Some d /\ v = JData d) \/
     (scan k' s = Normal None /\ ~ tries s < retries s /\ v = JStr unable_to_find)).
Proof.
  intros Hab Hlt.
  assert (Hget : get k st = (Normal JUndefined, after_miss k st))
    by (apply get_retry; auto using scan_absent).
  split; [exact Hget |]. split.
  - intros worlds rs st' Hrun. rewrite retry_chain_eq, Hget in Hrun.
    rewrite bool_decide_eq_true_2 in Hrun by (simpl; rewrite length_app; simpl; lia).
    destruct worlds as [| w worlds]; [discriminate |].
    destruct (retry_chain k worlds (set_chain w (after_miss k st))) as [[rs' st2] |] eqn:Hrest;
      [| discriminate].
    injection Hrun as <- <-. exists rs'. split; [reflexivity |].
    rewrite retry_chain_eq in Hrest.
    destruct (get k (set_chain w (after_miss k st))) as [r s1].
    destruct (bool_decide _); [| injection Hrest as <- _; discriminate].
    destruct worlds as [| w' worlds']; [discriminate |].
    destruct (retry_chain k worlds' (set_chain w' s1)) as [[rs2 st3] |];
      [injection Hrest as <- _; discriminate | discriminate].
  - intros k' s v Hv Hne.
    destruct (get_cases k' s) as
      [(b & d & Hs & Hd & _ & Hg) | [(Hs & _ & Hg) | [(Hs & Hge & Hg) | (e & Hs & Hg)]]];
      rewrite Hg in Hv; simpl in Hv; injection Hv as <-.
    + left. exists b, d. auto.
    + congruence.
    + right. auto.
    + congruence.
Qed.

Lemma get_miss_is_undefined_witness :
  let st := new_Ledger "n" [] ["p"] in
  get "z" st = (Normal JUndefined, after_miss "z" st) /\
  (forall worlds rs st', retry_chain "z" worlds st = Some (rs, st') ->
     exists later, rs = Normal JUndefined :: later /\ later <> []) /\
  (forall k' s v, fst (get k' s) = Normal v -> v <> JUndefined ->
     (exists b d, scan k' s = Normal (Some b) /\ data b = Some d /\ v = JData d) \/
     (scan k' s = Normal None /\ ~ tries s < retries s /\ v = JStr unable_to_find)).
Proof.
  apply (get_miss_is_undefined "z" (new_Ledger "n" [] ["p"]));
    [constructor | simpl; lia].
Defined.

(** ** History *)

Lemma in_history k bs d :
  In d (history k bs) <-> exists b, In b bs /\ data b = Some d /\ key d = k.
Proof.
  induction bs as [| b bs IH]; simpl.
  - split; [tauto | intros (? & [] & _)].
  - destruct (data b) as [d' |] eqn:Hd.
    + destruct (decide (key d' = k)) as [Hk | Hk]; simpl; rewrite IH; split.
      * intros [<- | (c & Hc & H)]; [exists b; auto | exists c; auto].
      * intros (c & [<- | Hc] & Hdc & Hkc); [left; congruence | right; eauto].
      * intros (c & Hc & H); exists c; auto.
      * intros (c & [<- | Hc] & Hdc & Hkc); [congruence | eauto].
    + rewrite IH; split.
      * intros (c & Hc & H); exists c; auto.
      * intros (c & [<- | Hc] & Hdc & Hkc); [congruence | eauto].
Qed.

Lemma filter_c_history k bs :
  well_formed bs ->
  exists matching,
    filter_c (key_is k) bs = Normal matching /\ omap data matching = history k bs.
Proof.
  induction 1 as [| b bs [d Hd] _ (matching & Hf & Hm)]; simpl.
  - exists []. auto.
  - unfold key_is at 1. rewrite Hd, Hf.
    destruct (decide (key d = k)) as [Hk | Hk].
    + rewrite bool_decide_eq_true_2 by exact Hk.
      exists (b :: matching). split; [reflexivity |].
      rewrite <- Hm. simpl. rewrite Hd. reflexivity.
    + rewrite bool_decide_eq_false_2 by exact Hk.
      exists matching. auto.
Qed.

Lemma guarded_sends_nothing (body : M JsResult) st :
  sent (snd (body st)) = sent st -> timers (snd (body st)) = timers st ->
  sent (snd (try_catch body log_error st)) = sent st /\
  timers (snd (try_catch body log_error st)) = timers st.
Proof.
  unfold try_catch. destruct (body st) as [[v | e] st']; simpl; auto.
Qed.

(** C6. History completeness and order: on a store whose blocks all carry
    data, [get_history(k)] returns the data of every block holding [k], in
    chain order, and leaves the instance as it was; whatever the store, it
    sends no message and schedules no retry. *)
Theorem get_history_complete k st :
  (well_formed (chain st) ->
   get_history k st = (Normal (JList (history k (chain st))), st)) /\
  (forall d, In d (history k (chain st)) <->
             exists b, In b (chain st) /\ data b = Some d /\ key d = k) /\
  sent (snd (get_history k st)) = sent st /\
  timers (snd (get_history k st)) = timers st.
Proof.
  split; [| split].
  - intros Hwf. destruct (filter_c_history k (chain st) Hwf) as (matching & Hf & Hm).
    unfold get_history, try_catch, get_history_body, bind, read, lift.
    rewrite Hf. unfold ret. rewrite Hm. reflexivity.
  - intros d. apply in_history.
  - apply guarded_sends_nothing;
      unfold get_history_body, bind, read, lift;
      destruct (filter_c (key_is k) (chain st)); reflexivity.
Qed.

(** The example of the specification: after [put("x", 1)], [put("y", 9)],
    [put("x", 2)] the history of ["x"] is [{x, 1}], [{x, 2}]. *)
Lemma get_history_complete_witness :
  let st := put_all (fun _ _ => "id") [("x", VNum 1); ("y", VNum 9); ("x", VNum 2)]
              (new_Ledger "n" [] ["p"]) in
  get_history "x" st =
    (Normal (JList [{| key := "x"; value := VNum 1 |}; {| key := "x"; value := VNum 2 |}]), st).
Proof.
  apply (get_history_complete "x"
           (put_all (fun _ _ => "id") [("x", VNum 1); ("y", VNum 9); ("x", VNum 2)]
              (new_Ledger "n" [] ["p"]))).
  repeat constructor; simpl; eauto.
Defined.

(** ** The accessor boundary *)

Lemma guarded_returns (body : M JsResult) st :
  exists v st',
    try_catch body log_error st = (Normal v, st') /\
    (forall e s1, body st = (Throw e, s1) ->
       v = JUndefined /\ st' = set_errors (errors s1 ++ [e]) s1) /\
    (forall a s1, body st = (Normal a, s1) -> v = a /\ st' = s1).
Proof.
  unfold try_catch. destruct (body st) as [[a | e] s1].
  - exists a, s1. split; [reflexivity |]. split; [discriminate |].
    intros ? ? [= <- <-]. auto.
  - eexists _, _. split; [reflexivity |]. split; [| discriminate].
    intros ? ? [= <- <-]. auto.
Qed.

(** C7. The accessors never throw: [get], [get_history] and [get_all]
    always complete with a value (data, the sentinel, a list, or
    [undefined]); an exception raised by the scan or filter is appended to
    [errors] and the caller receives [undefined]. *)
Theorem accessors_never_throw k st :
  (exists v st', get k st = (Normal v, st') /\
     (v = JUndefined \/ v = JStr unable_to_find \/ exists d, v = JData d)) /\
  (exists v st', get_history k st = (Normal v, st') /\
     (v = JUndefined \/ exists l, v = JList l)) /\
  (exists v st', get_all st = (Normal v, st') /\
     (v = JUndefined \/ exists l, v = JList l)) /\
  (forall e, scan k st = Throw e ->
     get k st = (Normal JUndefined, set_errors (errors st ++ [e]) st)) /\
  (forall e, filter_c (key_is k) (chain st) = Throw e ->
     get_history k st = (Normal JUndefined, set_errors (errors st ++ [e]) st)) /\
  (forall e, filter_latest ∅ (rev (map data (chain st))) = Throw e ->
     get_all st = (Normal JUndefined, set_errors (errors st ++ [e]) st)).
Proof.
  repeat apply conj.
  - destruct (get_cases k st) as
      [(b & d & _ & _ & _ & Hg) | [(_ & _ & Hg) | [(_ & _ & Hg) | (e & _ & Hg)]]];
      rewrite Hg; eauto 8.
  - unfold get_history, try_catch, get_history_body, bind, read, lift.
    destruct (filter_c (key_is k) (chain st)); simpl; eauto 8.
  - unfold get_all, try_catch, get_all_body, bind, read, lift.
    destruct (filter_latest ∅ (rev (map data (chain st)))); simpl; eauto 8.
  - intros e. apply get_caught.
  - intros e He. unfold get_history, try_catch, get_history_body, bind, read, lift.
    rewrite He. reflexivity.
  - intros e He. unfold get_all, try_catch, get_all_body, bind, read, lift.
    rewrite He. reflexivity.
Qed.

(** A block without data makes every scan throw; each accessor logs the
    [TypeError] and returns [undefined]. *)
Lemma accessors_never_throw_witness :
  let st := new_Ledger "n" [{| block_id := "b"; data := None |}] ["p"] in
  get "x" st = (Normal JUndefined, set_errors [undefined_key] st) /\
  get_history "x" st = (Normal JUndefined, set_errors [undefined_key] st) /\
  get_all st = (Normal JUndefined, set_errors [undefined_key] st).
Proof.
  destruct (accessors_never_throw "x"
              (new_Ledger "n" [{| block_id := "b"; data := None |}] ["p"]))
    as (_ & _ & _ & Hg & Hh & Ha).
  split; [apply (Hg undefined_key); reflexivity |].
  split; [apply (Hh undefined_key); reflexivity | apply (Ha undefined_key); reflexivity].
Defined.

(** ** Latest entries *)

Lemma unseen_add k latest e :
  unseen ({[k]} ∪ latest) e = other_key k e && unseen latest e.
Proof.
  unfold unseen, other_key.
  rewrite (bool_decide_ext _ (key e = k \/ key e ∈ latest)) by set_solver.
  rewrite bool_decide_or. apply negb_orb.
Qed.

Lemma filter_unseen_add k latest l :
  List.filter (unseen ({[k]} ∪ latest)) l =
  List.filter (unseen latest) (List.filter (other_key k) l).
Proof.
  induction l as [| e l IH]; simpl; [reflexivity |].
  rewrite unseen_add. destruct (other_key k e); simpl; rewrite IH; reflexivity.
Qed.

Lemma filter_unseen_empty l : List.filter (unseen ∅) l = l.
Proof.
  induction l as [| e l IH]; simpl; [reflexivity |].
  unfold unseen at 1. rewrite bool_decide_eq_false_2 by set_solver.
  simpl. rewrite IH. reflexivity.
Qed.

(** The stateful filter of [get_all] computes the specification's walk. *)
Lemma filter_latest_first_per_key entries : forall latest,
  filter_latest latest (map Some entries) =
  Normal (List.filter (unseen latest) (first_per_key entries)).
Proof.
  induction entries as [| e rest IH]; intros latest; simpl; [reflexivity |].
  rewrite IH, filter_unseen_add. unfold unseen at 3.
  destruct (bool_decide (key e ∈ latest)); reflexivity.
Qed.

Lemma well_formed_data bs : well_formed bs -> map data bs = map Some (omap data bs).
Proof.
  induction 1 as [| b bs [d Hd] _ IH]; simpl; [reflexivity |].
  rewrite Hd. simpl. rewrite IH. reflexivity.
Qed.

Lemma get_all_first_per_key st :
  well_formed (chain st) ->
  get_all st = (Normal (JList (first_per_key (newest_first (chain st)))), st).
Proof.
  intros Hwf. unfold get_all, try_catch, get_all_body, bind, read, lift.
  rewrite (well_formed_data _ Hwf), <- map_rev.
  rewrite filter_latest_first_per_key, filter_unseen_empty. reflexivity.
Qed.

Lemma other_key_true k e : other_key k e = true <-> key e <> k.
Proof.
  unfold other_key. rewrite negb_true_iff. apply bool_decide_eq_false.
Qed.

Lemma in_first_per_key entries : forall d,
  In d (first_per_key entries) <->
  exists newer older, entries = newer ++ d :: older /\ ~ In (key d) (map key newer).
Proof.
  induction entries as [| e rest IH]; intros d; simpl.
  - split; [tauto | intros (newer & older & H & _); destruct newer; discriminate].
  - rewrite filter_In, other_key_true, IH. split.
    + intros [<- | [(newer & older & -> & Hn) Hk]].
      * exists [], rest. auto.
      * exists (e :: newer), older. split; [reflexivity |].
        simpl. intros [He | Hin]; [congruence | contradiction].
    + intros (newer & older & Heq & Hn). destruct newer as [| e' newer].
      * injection Heq as -> _. auto.
      * injection Heq as <- ->. right. simpl in Hn. split.
        -- exists newer, older. split; [reflexivity | tauto].
        -- intros Hk. apply Hn. left. congruence.
Qed.

Lemma NoDup_map_filter {A B} (f : A -> B) (p : A -> bool) l :
  NoDup (map f l) -> NoDup (map f (List.filter p l)).
Proof.
  induction l as [| x l IH]; simpl; intros H; [constructor |].
  inversion H as [| ? ? Hx Hl]; subst.
  destruct (p x); simpl; [| auto].
  constructor; [| auto].
  rewrite list_elem_of_In in *. rewrite in_map_iff in *.
  intros (y & Hy & Hin). apply Hx. exists y. split; [exact Hy |].
  apply filter_In in Hin. tauto.
Qed.

Lemma first_per_key_NoDup entries : NoDup (map key (first_per_key entries)).
Proof.
  induction entries as [| e rest IH]; simpl; constructor.
  - rewrite list_elem_of_In, in_map_iff. intros (y & Hy & Hin).
    apply filter_In in Hin. destruct Hin as [_ Hk].
    apply other_key_true in Hk. congruence.
  - apply NoDup_map_filter, IH.
Qed.

Lemma filter_before (p : Data -> bool) d1 d2 l :
  before d1 d2 (List.filter p l) -> before d1 d2 l.
Proof.
  induction l as [| x l IH]; simpl.
  - intros (a & b & c & H). destruct a; discriminate.
  - destruct (p x) eqn:Hp.
    + intros (a & b & c & H). destruct a as [| y a].
      * simpl in H. injection H as -> H.
        assert (Hin : In d2 (List.filter p l)) by (rewrite H; apply in_elt).
        apply filter_In in Hin. destruct Hin as [Hin _].
        apply in_split in Hin. destruct Hin as (b' & c' & ->).
        exists [], b', c'. reflexivity.
      * simpl in H. injection H as <- H.
        destruct IH as (a' & b' & c' & ->); [exists a, b, c; exact H |].
        exists (x :: a'), b', c'. reflexivity.
    + intros H. destruct (IH H) as (a' & b' & c' & ->).
      exists (x :: a'), b', c'. reflexivity.
Qed.

(** Entries come out in the order of their first occurrences. *)
Lemma first_per_key_order entries : forall d1 d2,
  before d1 d2 (first_per_key entries) ->
  exists n m o,
    entries = n ++ d1 :: m ++ d2 :: o /\
    ~ In (key d1) (map key n) /\ ~ In (key d2) (map key (n ++ d1 :: m)).
Proof.
  induction entries as [| e rest IH]; intros d1 d2; simpl.
  - intros (a & b & c & H). destruct a; discriminate.
  - intros (a & b & c & H). destruct a as [| y a]; simpl in H.
    + injection H as -> H.
      assert (Hin : In d2 (List.filter (other_key (key d1)) (first_per_key rest)))
        by (rewrite H; apply in_elt).
      apply filter_In in Hin. destruct Hin as [Hin Hk].
      apply other_key_true in Hk.
      apply in_first_per_key in Hin. destruct Hin as (newer & older & -> & Hn).
      exists [], newer, older. simpl. split; [reflexivity |].
      split; [tauto |]. intros [Heq | Hin]; [congruence | contradiction].
    + injection H as <- H.
      assert (H1 : In d1 (List.filter (other_key (key e)) (first_per_key rest)))
        by (rewrite H; apply in_elt).
      assert (H2 : In d2 (List.filter (other_key (key e)) (first_per_key rest)))
        by (rewrite H, app_comm_cons, app_assoc; apply in_elt).
      apply filter_In in H1. destruct H1 as [_ H1]. apply other_key_true in H1.
      apply filter_In in H2. destruct H2 as [_ H2]. apply other_key_true in H2.
      destruct (IH d1 d2) as (n & m & o & -> & Hn1 & Hn2).
      { apply (filter_before (other_key (key e))). exists a, b, c. exact H. }
      exists (e :: n), m, o. simpl. split; [reflexivity |].
      split; intros [Heq | Hin]; try congruence; contradiction.
Qed.

Lemma filter_has_other k l :
  List.filter (has_key k) (List.filter (other_key k) l) = [].
Proof.
  induction l as [| e l IH]; simpl; [reflexivity |].
  destruct (other_key k e) eqn:Ho; simpl; [| exact IH].
  apply other_key_true in Ho. unfold has_key at 1.
  rewrite bool_decide_eq_false_2 by exact Ho. exact IH.
Qed.

Lemma filter_swap {A} (p q : A -> bool) l :
  List.filter p (List.filter q l) = List.filter q (List.filter p l).
Proof.
  induction l as [| x l IH]; simpl; [reflexivity |].
  destruct (p x) eqn:Hp, (q x) eqn:Hq; simpl; rewrite ?Hp, ?Hq, IH; reflexivity.
Qed.

(** Of the entries under [k], only the newest survives. *)
Lemma first_per_key_single k d older : forall newer,
  key d = k -> ~ In k (map key newer) ->
  List.filter (has_key k) (first_per_key (newer ++ d :: older)) = [d].
Proof.
  induction newer as [| e newer IH]; intros Hk Hn; simpl.
  - unfold has_key at 1. rewrite bool_decide_eq_true_2 by exact Hk.
    rewrite Hk, filter_has_other. reflexivity.
  - simpl in Hn. unfold has_key at 1.
    rewrite bool_decide_eq_false_2 by tauto.
    rewrite filter_swap, IH by tauto. simpl.
    assert (Ho : other_key (key e) d = true) by (apply other_key_true; intuition congruence).
    rewrite Ho. reflexivity.
Qed.

Lemma first_occurrence entries : forall d,
  In d entries ->
  exists d' newer older,
    entries = newer ++ d' :: older /\ key d' = key d /\ ~ In (key d') (map key newer).
Proof.
  induction entries as [| e rest IH]; intros d; simpl; [tauto |].
  intros Hin. destruct (decide (key e = key d)) as [Hk | Hk].
  - exists e, [], rest. auto.
  - destruct Hin as [-> | Hin]; [congruence |].
    destruct (IH d Hin) as (d' & newer & older & -> & Hd & Hn).
    exists d', (e :: newer), older. split; [reflexivity |]. split; [exact Hd |].
    simpl. intros [He | Hi]; [congruence | contradiction].
Qed.

Lemma absent_keys k bs : absent k bs -> ~ In k (map key (rev (omap data bs))).
Proof.
  intros Hab Hin. apply in_map_iff in Hin. destruct Hin as (d & Hk & Hin).
  apply in_rev in Hin. apply list_elem_of_In, list_elem_of_omap in Hin.
  destruct Hin as (b & Hb & Hd).
  unfold absent in Hab. rewrite Forall_forall in Hab.
  destruct (Hab b Hb) as (d' & Hd' & Hne). congruence.
Qed.

Lemma put_all_well_formed fresh_id kvs st :
  well_formed (chain st) -> well_formed (chain (put_all fresh_id kvs st)).
Proof.
  intros Hwf. destruct (put_all_chain fresh_id kvs st) as (newer & -> & Hd).
  apply Forall_app. split; [exact Hwf | eapply data_well_formed; eauto].
Qed.

Lemma put_well_formed fresh_id k v st :
  well_formed (chain st) ->
  well_formed (chain (snd (put (Chain_put fresh_id) k v st))).
Proof.
  intros Hwf. rewrite put_appends. simpl.
  apply Forall_app. split; [exact Hwf |]. repeat constructor. simpl. eauto.
Qed.

(** What [get_all] returns on a store whose blocks all carry data. *)
Lemma get_all_latest st :
  well_formed (chain st) ->
  exists l,
    get_all st = (Normal (JList l), st) /\
    l = first_per_key (newest_first (chain st)) /\
    NoDup (map key l) /\
    (forall d, In d (newest_first (chain st)) -> In (key d) (map key l)) /\
    (forall d, In d l <->
       exists newer older,
         newest_first (chain st) = newer ++ d :: older /\ ~ In (key d) (map key newer)) /\
    (forall d1 d2, before d1 d2 l ->
       exists n m o,
         newest_first (chain st) = n ++ d1 :: m ++ d2 :: o /\
         ~ In (key d1) (map key n) /\ ~ In (key d2) (map key (n ++ d1 :: m))).
Proof.
  intros Hwf. eexists. split; [apply get_all_first_per_key, Hwf |].
  split; [reflexivity |]. split; [apply first_per_key_NoDup |].
  split; [| split; [apply in_first_per_key | apply first_per_key_order]].
  intros d Hin. destruct (first_occurrence _ _ Hin) as (d' & newer & older & Heq & Hk & Hn).
  rewrite <- Hk. apply in_map. apply in_first_per_key. eauto.
Qed.

(** C4. Latest-wins read.  After [put(x, v1)], then [put(x, v2)], and
    writes under other keys only, [get(x)] returns [{ x, v2 }] and
    [get_all()] holds exactly one entry under [x], namely [{ x, v2 }].  On
    every store whose blocks all carry data, [get_all()] returns the
    newest-first walk that keeps the first occurrence of each key: one
    entry per key of the store, each the data of the newest block under its
    key, in the order of these newest blocks. *)
Theorem latest_wins fresh_id x v1 v2 others1 others2 st :
  well_formed (chain st) ->
  Forall (fun kv => fst kv <> x) others1 ->
  Forall (fun kv => fst kv <> x) others2 ->
  let st' :=
    put_all fresh_id others2 (snd (put (Chain_put fresh_id) x v2
      (put_all fresh_id others1 (snd (put (Chain_put fresh_id) x v1 st))))) in
  get x st' = (Normal (JData {| key := x; value := v2 |}), set_tries 0 st') /\
  (exists l, get_all st' = (Normal (JList l), st') /\
             List.filter (has_key x) l = [{| key := x; value := v2 |}]) /\
  (forall s, well_formed (chain s) ->
     exists l,
       get_all s = (Normal (JList l), s) /\
       l = first_per_key (newest_first (chain s)) /\
       NoDup (map key l) /\
       (forall d, In d (newest_first (chain s)) -> In (key d) (map key l)) /\
       (forall d, In d l <->
          exists newer older,
            newest_first (chain s) = newer ++ d :: older /\ ~ In (key d) (map key newer)) /\
       (forall d1 d2, before d1 d2 l ->
          exists n m o,
            newest_first (chain s) = n ++ d1 :: m ++ d2 :: o /\
            ~ In (key d1) (map key n) /\ ~ In (key d2) (map key (n ++ d1 :: m)))).
Proof.
  intros Hwf Ho1 Ho2 st'.
  set (st2 := put_all fresh_id others1 (snd (put (Chain_put fresh_id) x v1 st))) in *.
  assert (Hwf2 : well_formed (chain st2))
    by (apply put_all_well_formed, put_well_formed, Hwf).
  split; [apply (get_reads_last_put fresh_id x v2 others2 st2 Ho2) |].
  split; [| apply get_all_latest].
  destruct (chain_after_put fresh_id x v2 others2 st2 Ho2) as (newer & Hc & Hab & Hd).
  fold st' in Hc.
  assert (Hwf' : well_formed (chain st')).
  { rewrite Hc. apply Forall_app. split; [exact Hwf2 |].
    constructor; [simpl; eauto | eapply data_well_formed; eauto]. }
  eexists. split; [apply get_all_first_per_key, Hwf' |].
  unfold newest_first. rewrite Hc, omap_app. simpl.
  rewrite rev_app_distr. simpl. rewrite <- app_assoc. simpl.
  apply first_per_key_single; [reflexivity | apply absent_keys, Hab].
Qed.

(** The example of the specification: [put("x", 1)] then [put("x", 2)]. *)
Lemma latest_wins_witness :
  let st' := snd (put (Chain_put (fun _ _ => "id")) "x" (VNum 2)
                (snd (put (Chain_put (fun _ _ => "id")) "x" (VNum 1)
                   (new_Ledger "n" [] ["p"])))) in
  get "x" st' = (Normal (JData {| key := "x"; value := VNum 2 |}), set_tries 0 st') /\
  exists l, get_all st' = (Normal (JList l), st') /\
            List.filter (has_key "x") l = [{| key := "x"; value := VNum 2 |}].
Proof.
  destruct (latest_wins (fun _ _ => "id") "x" (VNum 1) (VNum 2) [] []
              (new_Ledger "n" [] ["p"])) as (Hg & Ha & _);
    [constructor | constructor | constructor |].
  split; [exact Hg | exact Ha].
Defined.

(** ** The retry budget across calls *)

Section Preserves.

Context {F : Type} (proj : Ledger -> F).

Lemma preserves_ret {A} (a : A) : preserves proj (ret a).
Proof. intros st. reflexivity. Qed.

Lemma preserves_throw {A} e : preserves proj (@throw A e).
Proof. intros st. reflexivity. Qed.

Lemma preserves_lift {A} (c : Completion A) : preserves proj (lift c).
Proof. intros st. reflexivity. Qed.

Lemma preserves_read : preserves proj read.
Proof. intros st. reflexivity. Qed.

Lemma preserves_modify f :
  (forall st, proj (f st) = proj st) -> preserves proj (modify f).
Proof. intros H st. apply H. Qed.

Lemma preserves_bind {A B} (m : M A) (k : A -> M B) :
  preserves proj m -> (forall a, preserves proj (k a)) -> preserves proj (bind m k).
Proof.
  intros Hm Hk st. unfold bind. specialize (Hm st).
  destruct (m st) as [[a | e] st1]; simpl in *.
  - rewrite (Hk a st1). exact Hm.
  - exact Hm.
Qed.

Lemma preserves_forEach {A} (f : A -> M unit) l :
  (forall x, preserves proj (f x)) -> preserves proj (forEach f l).
Proof.
  intros Hf. induction l as [| x l IH]; simpl.
  - apply preserves_ret.
  - apply preserves_bind; auto.
Qed.

Lemma preserves_try_catch {A} (body : M A) handler_ :
  preserves proj body -> (forall e, preserves proj (handler_ e)) ->
  preserves proj (try_catch body handler_).
Proof.
  intros Hb Hh st. unfold try_catch. specialize (Hb st).
  destruct (body st) as [[a | e] st1]; simpl in *; [exact Hb |].
  rewrite (Hh e st1). exact Hb.
Qed.

End Preserves.

(** Decompose a method body into its steps; what remains are the updates
    that touch the part under consideration. *)
Ltac preserves_steps :=
  repeat first
    [ apply preserves_ret | apply preserves_throw | apply preserves_lift
    | apply preserves_read
    | apply preserves_modify; intros; reflexivity
    | apply preserves_forEach; intros
    | apply preserves_try_catch; [| intros]
    | apply preserves_bind; [| intros]
    | match goal with
      | |- preserves _ (if ?b then _ else _) => destruct b
      | |- preserves _ (match ?x with _ => _ end) => destruct x
      end ].

Lemma get_history_budget k : preserves budget (get_history k).
Proof. unfold get_history, get_history_body, log_error, node_send. preserves_steps. Qed.

Lemma get_all_budget : preserves budget get_all.
Proof. unfold get_all, get_all_body, log_error, node_send. preserves_steps. Qed.

Section Budget.

Variable chain_put : Data -> list Block -> Completion Block * list Block.
Variable chain_add : Block -> list Block -> list Block.
Variable chain_merge : list Block -> list Block -> list Block.
Variable chain_compare : BlockMap -> list Block -> list string.
Variable chain_mapBlocks : list Block -> BlockMap.
Variable sortBlocks : list Block -> list Block.

Local Abbreviation run_ :=
  (run chain_put chain_add chain_merge chain_compare chain_mapBlocks sortBlocks).
Local Abbreviation run_all_ :=
  (run_all chain_put chain_add chain_merge chain_compare chain_mapBlocks sortBlocks).
Local Abbreviation no_hit_ :=
  (no_hit chain_put chain_add chain_merge chain_compare chain_mapBlocks sortBlocks).

Lemma put_budget k v : preserves budget (put chain_put k v).
Proof.
  unfold put, node_send. preserves_steps.
  intros st. destruct (chain_put _ (chain st)) as [c bs]. reflexivity.
Qed.

Lemma handlers_budget c :
  match c with
  | CPut _ _ | CGet _ | CGetHistory _ | CGetAll => True
  | _ => preserves budget (run_ c)
  end.
Proof.
  destruct c; simpl; try exact I;
    unfold handler, on_connect, on_from_any, on_from_any_with, dispatch_payload,
      this_core, addChainLength, respondBlockMap, requestMissingBlocks, on_request_block,
      on_requested_block, on_block, on_chain, on_request, node_send;
    preserves_steps.
Qed.

(** Only [get] touches the counter: a hit resets it, a miss within budget
    adds one, everything else leaves it. *)
Lemma run_tries c st :
  retries (snd (run_ c st)) = retries st /\
  (tries (snd (run_ c st)) = tries st \/
   (get_hits c st = false /\ tries st < retries st /\
    tries (snd (run_ c st)) = S (tries st)) \/
   (get_hits c st = true /\ tries (snd (run_ c st)) = 0)).
Proof.
  assert (Hkeep : preserves budget (run_ c) ->
            retries (snd (run_ c st)) = retries st /\
            (tries (snd (run_ c st)) = tries st \/
             (get_hits c st = false /\ tries st < retries st /\
              tries (snd (run_ c st)) = S (tries st)) \/
             (get_hits c st = true /\ tries (snd (run_ c st)) = 0))).
  { intros Hm. specialize (Hm st). injection Hm as Ht Hr. auto. }
  pose proof (handlers_budget c) as Hc.
  destruct c; try (apply Hkeep; exact Hc).
  - apply Hkeep, put_budget.
  - simpl run. unfold get_hits.
    destruct (get_cases k st) as
      [(b & d & _ & _ & _ & Hg) | [(_ & Hlt & Hg) | [(_ & _ & Hg) | (e & _ & Hg)]]];
      rewrite Hg; simpl; auto 6.
  - apply Hkeep, get_history_budget.
  - apply Hkeep, get_all_budget.
Qed.

Lemma no_hit_exhausted cs : forall st,
  tries st = retries st -> no_hit_ cs st ->
  tries (run_all_ cs st) = retries (run_all_ cs st).
Proof.
  induction cs as [| c cs IH]; intros st Heq Hno; simpl; [exact Heq |].
  destruct Hno as [Hc Hno]. apply IH; [| exact Hno].
  destruct (run_tries c st) as [Hr [Ht | [(_ & Hlt & _) | (Hhit & _)]]];
    [congruence | lia | congruence].
Qed.

(** C8. The retry budget is sticky.  A call lowers the retry counter only
    if it is a [get] that hits.  Hence, once the counter has reached the
    budget, after any calls and deliveries none of which is a [get] that
    hits, a [get] for an absent key returns ["unable to find."] on its
    first scan and changes nothing: no key request, no retry. *)
Theorem retry_budget_sticky :
  (forall c st, tries (snd (run_ c st)) < tries st -> get_hits c st = true) /\
  (forall cs st k,
     tries st = retries st -> no_hit_ cs st ->
     absent k (chain (run_all_ cs st)) ->
     get k (run_all_ cs st) = (Normal (JStr unable_to_find), run_all_ cs st)).
Proof.
  split.
  - intros c st Hlt.
    destruct (run_tries c st) as [_ [Ht | [(_ & _ & Ht) | (Hhit & _)]]];
      [lia | lia | exact Hhit].
  - intros cs st k Heq Hno Hab.
    apply get_exhausted; [apply scan_absent, Hab |].
    rewrite (no_hit_exhausted cs st Heq Hno). lia.
Qed.

End Budget.

(** After the budget is used up, reads of absent keys, a write and a
    message delivery change nothing for the next read: it gives up at
    once. *)
Lemma retry_budget_sticky_witness :
  let calls := [CGet "y"; CPut "a" (VNum 1); OnBlock {| block_id := "r"; data := None |} "n";
                CGetHistory "a"; CGet "z"] in
  let st := run_all append_put append_add (fun _ bs => bs) (fun m _ => m)
              (fun _ => []) (fun bs => bs) calls exhausted_ledger in
  tries exhausted_ledger = 3 /\
  get "q" st = (Normal (JStr unable_to_find), st) /\
  sent (snd (get "q" st)) = sent st /\ timers (snd (get "q" st)) = timers st.
Proof.
  intros calls st.
  assert (H : get "q" st = (Normal (JStr unable_to_find), st)).
  { apply (proj2 (retry_budget_sticky append_put append_add (fun _ bs => bs)
                    (fun m _ => m) (fun _ => []) (fun bs => bs))
             calls exhausted_ledger "q").
    - reflexivity.
    - simpl. repeat split; reflexivity.
    - vm_compute. repeat constructor. eexists. split; [reflexivity | discriminate]. }
  split; [reflexivity |]. split; [exact H |]. rewrite H. split; reflexivity.
Defined.

(** ** Reconciliation sessions *)

Section Reconciliation.

Variable chain_add : Block -> list Block -> list Block.
Variable chain_compare : BlockMap -> list Block -> list string.
Variable sortBlocks : list Block -> list Block.

Local Abbreviation on_requested_block_ := (on_requested_block chain_add sortBlocks).
Local Abbreviation deliver_ := (deliver chain_add sortBlocks).
Local Abbreviation add_all_ := (add_all chain_add).
Local Abbreviation chain_after_ := (chain_after chain_add).

Lemma requested_block_step b from st :
  on_requested_block_ b from st =
  (Normal tt,
   if decide (length (missing_blocks st) = length (received_after b from st)) then
     set_received_blocks [] (set_missing_blocks []
       (set_chain (sortBlocks (chain_after_ b from st)) st))
   else
     set_chain (chain_after_ b from st)
       (set_received_blocks (received_after b from st) st)).
Proof.
  unfold on_requested_block, received_after, chain_after, bind, read, modify, ret.
  destruct st as [nm ch cl mi re er rt tr pe se ti]. simpl.
  destruct (decide (from = nm)) as [Heq | Hne].
  - rewrite bool_decide_eq_false_2 by auto. simpl.
    destruct (decide (length mi = length re)) as [Hl | Hl].
    + rewrite bool_decide_eq_true_2 by exact Hl. reflexivity.
    + rewrite bool_decide_eq_false_2 by exact Hl. reflexivity.
  - rewrite bool_decide_eq_true_2 by exact Hne. simpl.
    destruct (decide (length mi = length (re ++ [b]))) as [Hl | Hl].
    + rewrite bool_decide_eq_true_2 by exact Hl. reflexivity.
    + rewrite bool_decide_eq_false_2 by exact Hl. reflexivity.
Qed.

(** While fewer blocks have arrived than are missing, deliveries only
    accumulate. *)
Lemma deliver_pending msgs : forall st,
  length (received_blocks st) + length (from_others (name st) msgs)
    < length (missing_blocks st) ->
  deliver_ msgs st =
  set_chain (add_all_ (from_others (name st) msgs) (chain st))
    (set_received_blocks (received_blocks st ++ from_others (name st) msgs) st).
Proof.
  induction msgs as [| [b from] msgs IH]; intros st Hlt.
  - simpl. rewrite app_nil_r. destruct st; reflexivity.
  - simpl deliver. rewrite requested_block_step.
    unfold received_after, chain_after. simpl from_others in *.
    destruct (decide (from = name st)) as [Heq | Hne].
    + rewrite decide_False by lia. simpl.
      rewrite IH by (simpl; exact Hlt). simpl. reflexivity.
    + simpl in Hlt. rewrite decide_False by (rewrite length_app; simpl; lia). simpl.
      rewrite IH by (simpl; rewrite length_app; simpl; lia). simpl.
      rewrite <- app_assoc. reflexivity.
Qed.

Lemma deliver_app msgs1 msgs2 st :
  deliver_ (msgs1 ++ msgs2) st = deliver_ msgs2 (deliver_ msgs1 st).
Proof.
  revert st. induction msgs1 as [| [b from] msgs1 IH]; intros st; simpl; auto.
Qed.

Lemma add_all_snoc bs b blocks :
  add_all_ (bs ++ [b]) blocks = chain_add b (add_all_ bs blocks).
Proof. unfold add_all. rewrite fold_left_app. reflexivity. Qed.

(** C2. Reconciliation session completion.  A session opens when the
    block map of a peer is diffed: [missing_blocks] becomes the result of
    [compare].  While fewer blocks than that have arrived from peers, each
    arrival is recorded and added to the store, and nothing is sorted or
    cleared.  The arrival that makes the two counts equal sorts the store
    and empties both lists.  For a single delivery in any state: the store
    is sorted and the lists are emptied if the counts are equal after the
    block was recorded, and otherwise neither happens. *)
Theorem reconciliation_completes block_map msgs st :
  received_blocks st = [] ->
  let missing := chain_compare block_map (chain st) in
  let st1 := snd (requestMissingBlocks chain_compare block_map st) in
  let arrived := from_others (name st) msgs in
  missing_blocks st1 = missing /\ received_blocks st1 = [] /\ chain st1 = chain st /\
  (length arrived < length missing ->
     missing_blocks (deliver_ msgs st1) = missing /\
     received_blocks (deliver_ msgs st1) = arrived /\
     chain (deliver_ msgs st1) = add_all_ arrived (chain st)) /\
  (forall b from,
     from <> name st -> S (length arrived) = length missing ->
     missing_blocks (deliver_ (msgs ++ [(b, from)]) st1) = [] /\
     received_blocks (deliver_ (msgs ++ [(b, from)]) st1) = [] /\
     chain (deliver_ (msgs ++ [(b, from)]) st1) =
       sortBlocks (add_all_ (arrived ++ [b]) (chain st))) /\
  (forall b from s,
     let s' := snd (on_requested_block_ b from s) in
     (length (missing_blocks s) = length (received_after b from s) ->
        chain s' = sortBlocks (chain_after_ b from s) /\
        missing_blocks s' = [] /\ received_blocks s' = []) /\
     (length (missing_blocks s) <> length (received_after b from s) ->
        chain s' = chain_after_ b from s /\
        missing_blocks s' = missing_blocks s /\
        received_blocks s' = received_after b from s)).
Proof.
  intros Hre missing st1 arrived.
  assert (Hst1 : missing_blocks st1 = missing /\ received_blocks st1 = [] /\
                 chain st1 = chain st /\ name st1 = name st).
  { unfold st1, requestMissingBlocks, bind, modify, read. simpl.
    pose proof (preserves_forEach
      (fun s => (missing_blocks s, received_blocks s, chain s, name s))
      (fun id => node_send (Channel "request_block") (PBlockId id))
      (chain_compare block_map (chain st))) as Hp.
    specialize (Hp (fun id => ltac:(unfold node_send; preserves_steps))).
    specialize (Hp (set_missing_blocks (chain_compare block_map (chain st)) st)).
    simpl in Hp. injection Hp as -> -> -> ->. auto. }
  destruct Hst1 as (Hmi & Hrc & Hch & Hnm).
  assert (Hpending : length arrived < length missing ->
            deliver_ msgs st1 =
            set_chain (add_all_ arrived (chain st)) (set_received_blocks arrived st1)).
  { intros Hlt. rewrite deliver_pending; rewrite Hnm, Hrc, ?Hmi, ?Hch; auto. }
  split; [exact Hmi |]. split; [exact Hrc |]. split; [exact Hch |].
  split; [| split].
  - intros Hlt. rewrite (Hpending Hlt). simpl. auto.
  - intros b from Hne Hlen. rewrite deliver_app. simpl deliver.
    rewrite Hpending by lia. rewrite requested_block_step.
    unfold received_after, chain_after. simpl. rewrite Hnm, Hmi.
    destruct (decide (from = name st)) as [Heq | _]; [contradiction |].
    rewrite decide_True by (rewrite length_app; simpl; lia).
    simpl. rewrite add_all_snoc. auto.
  - intros b from s s'. unfold s'. rewrite requested_block_step. split; intros Hl.
    + rewrite decide_True by exact Hl. simpl. auto.
    + rewrite decide_False by exact Hl. simpl. auto.
Qed.

End Reconciliation.

(** A session over two missing blocks: the first arrival is only recorded,
    the second sorts the store (here: reverses it) and clears the
    session. *)
Lemma reconciliation_completes_witness :
  let b1 := {| block_id := "1"; data := Some {| key := "x"; value := VNum 1 |} |} in
  let b2 := {| block_id := "2"; data := Some {| key := "y"; value := VNum 2 |} |} in
  let st := new_Ledger "n" [] ["p"] in
  let st1 := snd (requestMissingBlocks (fun m _ => m) ["1"; "2"] st) in
  (missing_blocks (deliver append_add (@rev Block) [(b2, "p")] st1) = ["1"; "2"] /\
   received_blocks (deliver append_add (@rev Block) [(b2, "p")] st1) = [b2] /\
   chain (deliver append_add (@rev Block) [(b2, "p")] st1) = [b2]) /\
  (missing_blocks (deliver append_add (@rev Block) [(b2, "p"); (b1, "p")] st1) = [] /\
   received_blocks (deliver append_add (@rev Block) [(b2, "p"); (b1, "p")] st1) = [] /\
   chain (deliver append_add (@rev Block) [(b2, "p"); (b1, "p")] st1) = [b1; b2]).
Proof.
  intros b1 b2 st st1.
  destruct (reconciliation_completes append_add (fun m _ => m) (@rev Block)
              ["1"; "2"] [(b2, "p")] st) as (_ & _ & _ & Hpending & Hdone & _);
    [reflexivity |].
  split.
  - apply Hpending. simpl. lia.
  - apply (Hdone b1 "p"); [discriminate | reflexivity].
Defined.

(** ** The gossip round *)

Lemma node_send_other t p :
  is_block_map_request {| target := t; payload := p |} = false ->
  preserves block_map_requests (node_send t p).
Proof.
  intros Hp. apply preserves_modify. intros st.
  unfold block_map_requests. simpl. rewrite List.filter_app. simpl.
  rewrite Hp. apply app_nil_r.
Qed.

Section Gossip.

Variable chain_compare : BlockMap -> list Block -> list string.
Variable chain_mapBlocks : list Block -> BlockMap.

Local Abbreviation on_from_any_ := (on_from_any chain_compare chain_mapBlocks).
Local Abbreviation on_from_any_with_ := (on_from_any_with chain_compare chain_mapBlocks).

(** The dispatch on the payload sends no block-map request. *)
Lemma dispatch_payload_quiet d id :
  preserves block_map_requests (dispatch_payload chain_compare chain_mapBlocks d id).
Proof.
  unfold dispatch_payload, addChainLength, respondBlockMap, requestMissingBlocks.
  destruct d as [| | [[| n] |] req bm]; preserves_steps;
    apply node_send_other; reflexivity.
Qed.

(** As written, the handler throws on every delivery, and never sends a
    block-map request. *)
Lemma on_from_any_throws d id st :
  (exists e, fst (on_from_any_ d id st) = Throw e) /\
  block_map_requests (snd (on_from_any_ d id st)) = block_map_requests st.
Proof.
  pose proof (dispatch_payload_quiet d id st) as Hq.
  unfold on_from_any, on_from_any_with, this_core, bind, read.
  destruct (dispatch_payload chain_compare chain_mapBlocks d id st) as [[[] | e] s1];
    simpl in *; eauto.
Qed.

Lemma forEach_selectChain reports : forall st,
  forEach selectChain reports st =
  (Normal tt, set_sent (sent st ++ map block_map_request (longer_peers st reports)) st).
Proof.
  induction reports as [| r reports IH]; intros st.
  - simpl. unfold ret, longer_peers. simpl. rewrite app_nil_r. destruct st; reflexivity.
  - simpl forEach. unfold bind at 1. unfold selectChain at 1, bind, read, longer_peers.
    simpl List.filter.
    destruct (bool_decide (chain_length st < reported r)); simpl.
    + rewrite IH. simpl. rewrite <- app_assoc. reflexivity.
    + rewrite IH. reflexivity.
Qed.

(** With the peer directory of [this.node.core], a length report is
    recorded, and block-map requests go out only when at least as many
    reports as connected peers are held, to the peers that reported a chain
    longer than the local one. *)
Lemma gated_round id n req bm st :
  let reports := chain_lengths st ++ [{| peer := id; reported := S n |}] in
  on_from_any_with_ this_node_core (IObject (Some (S n)) req bm) id st =
  (Normal tt,
   set_sent (sent st ++
               if bool_decide (length (peers st) <= length reports)
               then map block_map_request (longer_peers st reports)
               else [])
     (set_chain_lengths reports st)).
Proof.
  intros reports.
  unfold on_from_any_with, dispatch_payload, this_node_core, addChainLength, bind, modify, read.
  simpl. fold reports.
  destruct (bool_decide (length (peers st) <= length reports)).
  - rewrite forEach_selectChain. reflexivity.
  - unfold ret. rewrite app_nil_r. destruct st; reflexivity.
Qed.

(** C1 (defect of the code).  Three peers are connected, the local chain
    holds 4 blocks, and the peers report the lengths 2, 5 and 7.  As
    written, each delivery throws the [TypeError] of
    [this.core.getPeers()], and no block-map request is sent at any point.
    Reading the directory from [this.node.core] instead, the same round
    sends nothing after the first and second report, and after the third
    requests the block map of the peers that reported 5 and 7. *)
Theorem quorum_round_throws :
  let st0 := new_Ledger "n" four_blocks ["p1"; "p2"; "p3"] in
  let r1 := on_from_any_ (length_report 2) "p1" st0 in
  let r2 := on_from_any_ (length_report 5) "p2" (snd r1) in
  let r3 := on_from_any_ (length_report 7) "p3" (snd r2) in
  let i1 := on_from_any_with_ this_node_core (length_report 2) "p1" st0 in
  let i2 := on_from_any_with_ this_node_core (length_report 5) "p2" (snd i1) in
  let i3 := on_from_any_with_ this_node_core (length_report 7) "p3" (snd i2) in
  (fst r1 = Throw undefined_getPeers /\ fst r2 = Throw undefined_getPeers /\
   fst r3 = Throw undefined_getPeers /\
   length (chain_lengths (snd r3)) = 3 /\ sent (snd r3) = []) /\
  (fst i1 = Normal tt /\ fst i2 = Normal tt /\ fst i3 = Normal tt /\
   sent (snd i1) = [] /\ sent (snd i2) = [] /\
   sent (snd i3) = [block_map_request "p2"; block_map_request "p3"]).
Proof. repeat split. Qed.

End Gossip.

(** In the other copy of the class the same round is not gated: the report
    of 5 is answered by a block-map request at once, before the third peer
    has reported. *)
Lemma part000_requests_at_once chain_compare chain_mapBlocks :
  let st0 := {| Part000.base := new_Ledger "n" four_blocks ["p1"; "p2"; "p3"];
                Part000.target_length := None |} in
  let r1 := Part000.on_from_any chain_compare chain_mapBlocks (length_report 2) "p1" st0 in
  let r2 := Part000.on_from_any chain_compare chain_mapBlocks (length_report 5) "p2" (snd r1) in
  sent (Part000.base (snd r1)) = [] /\
  sent (Part000.base (snd r2)) = [block_map_request "p2"] /\
  Part000.target_length (snd r2) = Some 5.
Proof. repeat split. Qed.

(** * Further properties of the handlers and accessors *)

(** ** Serving requests *)

Lemma find_id_absent id bs : id_absent id bs -> find_c (id_is id) bs = Normal None.
Proof.
  induction 1 as [| b bs Hb _ IH]; simpl; [reflexivity |].
  rewrite bool_decide_eq_false_2 by exact Hb. exact IH.
Qed.

Lemma find_id_newest id older b newer :
  block_id b = id -> id_absent id newer ->
  find_c (id_is id) (rev (older ++ b :: newer)) = Normal (Some b).
Proof.
  intros Hb Hn. rewrite rev_app_distr. simpl. rewrite <- app_assoc. simpl.
  apply Forall_rev in Hn. revert Hn.
  induction (rev newer) as [| c cs IH]; simpl; intros Hn.
  - rewrite bool_decide_eq_true_2 by exact Hb. reflexivity.
  - inversion Hn as [| ? ? Hc Hcs]; subst.
    rewrite bool_decide_eq_false_2 by exact Hc. apply IH, Hcs.
Qed.

Lemma set_sent_same st : set_sent (sent st) st = st.
Proof. destruct st; reflexivity. Qed.

(** X1. A block request from another peer is answered with the newest
    block that has the identifier, on the ["block"] channel, and with
    nothing when no block has it; the handler never throws, whatever the
    blocks hold, and changes nothing else. *)
Theorem request_block_served id from st :
  from <> name st ->
  (forall older b newer,
     chain st = older ++ b :: newer -> block_id b = id -> id_absent id newer ->
     on_request_block id from st =
       (Normal tt, set_sent (sent st ++ [block_broadcast b]) st)) /\
  (id_absent id (chain st) -> on_request_block id from st = (Normal tt, st)) /\
  (exists reply, on_request_block id from st =
                   (Normal tt, set_sent (sent st ++ reply) st) /\ length reply <= 1).
Proof.
  intros Hne.
  assert (Hrun : on_request_block id from st =
            match find_c (id_is id) (rev (chain st)) with
            | Normal (Some b) => (Normal tt, set_sent (sent st ++ [block_broadcast b]) st)
            | Normal None => (Normal tt, st)
            | Throw e => (Throw e, st)
            end).
  { unfold on_request_block, bind, read, lift.
    rewrite bool_decide_eq_true_2 by exact Hne.
    destruct (find_c (id_is id) (rev (chain st))) as [[b |] | e]; reflexivity. }
  split; [| split].
  - intros older b newer Hc Hb Hn. rewrite Hrun, Hc, (find_id_newest id older b newer Hb Hn).
    reflexivity.
  - intros Hab. rewrite Hrun, (find_id_absent id (rev (chain st))) by (apply Forall_rev, Hab).
    reflexivity.
  - rewrite Hrun.
    assert (Hno : forall l, exists r, find_c (id_is id) l = Normal r).
    { induction l as [| c l [r IH]]; simpl; [eauto |].
      destruct (bool_decide (block_id c = id)); eauto. }
    destruct (Hno (rev (chain st))) as [[b |] ->].
    + exists [block_broadcast b]. split; [reflexivity | simpl; lia].
    + exists []. rewrite app_nil_r, set_sent_same. split; [reflexivity | simpl; lia].
Qed.

Lemma request_block_served_witness :
  let b1 := {| block_id := "1"; data := None |} in
  let b2 := {| block_id := "2"; data := Some {| key := "x"; value := VNum 1 |} |} in
  let st := new_Ledger "n" [b1; b2] ["p"] in
  on_request_block "1" "p" st = (Normal tt, set_sent [block_broadcast b1] st) /\
  on_request_block "7" "p" st = (Normal tt, st).
Proof.
  intros b1 b2 st.
  destruct (request_block_served "1" "p" st) as (Hhit & _); [discriminate |].
  destruct (request_block_served "7" "p" st) as (_ & Hmiss & _); [discriminate |].
  split.
  - apply (Hhit [] b1 [b2]); [reflexivity | reflexivity |].
    repeat constructor. discriminate.
  - apply Hmiss. repeat constructor; discriminate.
Defined.

(** X2. A key request from another peer is answered with the newest block
    under the key, the block whose data [get] returns, and with nothing
    when the key is absent.  The handler has no [catch]: where [get] logs
    the [TypeError] of a block without data and returns [undefined], the
    handler throws it, having sent and logged nothing. *)
Theorem key_request_served k from st :
  from <> name st ->
  (forall b, scan k st = Normal (Some b) ->
     on_request k from st = (Normal tt, set_sent (sent st ++ [block_broadcast b]) st) /\
     exists d, data b = Some d /\ key d = k /\ fst (get k st) = Normal (JData d)) /\
  (absent k (chain st) -> on_request k from st = (Normal tt, st)) /\
  (forall e, scan k st = Throw e ->
     on_request k from st = (Throw e, st) /\
     get k st = (Normal JUndefined, set_errors (errors st ++ [e]) st)).
Proof.
  intros Hne.
  assert (Hrun : on_request k from st =
            match scan k st with
            | Normal (Some b) => (Normal tt, set_sent (sent st ++ [block_broadcast b]) st)
            | Normal None => (Normal tt, st)
            | Throw e => (Throw e, st)
            end).
  { unfold on_request, scan, bind, read, lift.
    rewrite bool_decide_eq_true_2 by exact Hne.
    destruct (find_c (key_is k) (rev (chain st))) as [[b |] | e]; reflexivity. }
  split; [| split].
  - intros b Hs. rewrite Hrun, Hs. split; [reflexivity |].
    destruct (find_some_key _ _ _ Hs) as (d & Hd & Hk).
    exists d. split; [exact Hd |]. split; [exact Hk |].
    rewrite (get_hit k st b d Hs Hd). reflexivity.
  - intros Hab. rewrite Hrun, (scan_absent k st Hab). reflexivity.
  - intros e Hs. rewrite Hrun, Hs. split; [reflexivity | apply get_caught, Hs].
Qed.

Lemma key_request_served_witness :
  let b1 := {| block_id := "1"; data := None |} in
  let b2 := {| block_id := "2"; data := Some {| key := "x"; value := VNum 1 |} |} in
  let st := new_Ledger "n" [b1; b2] ["p"] in
  on_request "x" "p" st = (Normal tt, set_sent [block_broadcast b2] st) /\
  on_request "y" "p" st = (Throw undefined_key, st) /\
  get "y" st = (Normal JUndefined, set_errors [undefined_key] st).
Proof.
  intros b1 b2 st.
  destruct (key_request_served "x" "p" st) as (Hhit & _); [discriminate |].
  destruct (key_request_served "y" "p" st) as (_ & _ & Hthrow); [discriminate |].
  split; [apply (Hhit b2); reflexivity |].
  apply (Hthrow undefined_key). reflexivity.
Defined.


(** ** Messages a ledger receives from itself *)

Lemma set_chain_received_same st :
  set_chain (chain st) (set_received_blocks (received_blocks st) st) = st.
Proof. destruct st; reflexivity. Qed.

(** X3. The handlers compare the sender's name with the ledger's own.  A
    block request, a key request, a block broadcast and a chain broadcast
    that carry the ledger's own name change nothing and send nothing.  A
    ["requested_block"] message under the own name is not recorded or
    added either, but the comparison of the two counts still runs: when
    they are equal, as on a new instance, the store is sorted and both
    lists are emptied. *)
Theorem own_messages_ignored
    (chain_add : Block -> list Block -> list Block)
    (chain_merge : list Block -> list Block -> list Block)
    (sortBlocks : list Block -> list Block) st b bs id k :
  on_request_block id (name st) st = (Normal tt, st) /\
  on_request k (name st) st = (Normal tt, st) /\
  on_block chain_add b (name st) st = (Normal tt, st) /\
  on_chain chain_merge bs (name st) st = (Normal tt, st) /\
  on_requested_block chain_add sortBlocks b (name st) st =
    (Normal tt,
     if decide (length (missing_blocks st) = length (received_blocks st)) then
       set_received_blocks [] (set_missing_blocks []
         (set_chain (sortBlocks (chain st)) st))
     else st).
Proof.
  repeat apply conj.
  - unfold on_request_block, bind, read. rewrite bool_decide_eq_false_2 by auto. reflexivity.
  - unfold on_request, bind, read. rewrite bool_decide_eq_false_2 by auto. reflexivity.
  - unfold on_block, bind, read. rewrite bool_decide_eq_false_2 by auto. reflexivity.
  - unfold on_chain, bind, read. rewrite bool_decide_eq_false_2 by auto. reflexivity.
  - rewrite requested_block_step. unfold received_after, chain_after.
    destruct (decide (name st = name st)) as [_ | Hn]; [| contradiction].
    destruct (decide (length (missing_blocks st) = length (received_blocks st)));
      [reflexivity |].
    rewrite set_chain_received_same. reflexivity.
Qed.

(** ** What each call may change *)

Section Frame.

Variable chain_put : Data -> list Block -> Completion Block * list Block.
Variable chain_add : Block -> list Block -> list Block.
Variable chain_merge : list Block -> list Block -> list Block.
Variable chain_compare : BlockMap -> list Block -> list string.
Variable chain_mapBlocks : list Block -> BlockMap.
Variable sortBlocks : list Block -> list Block.

Local Abbreviation run_ :=
  (run chain_put chain_add chain_merge chain_compare chain_mapBlocks sortBlocks).
Local Abbreviation run_all_ :=
  (run_all chain_put chain_add chain_merge chain_compare chain_mapBlocks sortBlocks).

Ltac run_preserves :=
  unfold run, handler, put, get, get_body, get_history, get_history_body,
    get_all, get_all_body, log_error, on_connect, on_from_any, on_from_any_with,
    dispatch_payload, this_core, addChainLength, respondBlockMap,
    requestMissingBlocks, on_request_block, on_requested_block, on_block,
    on_chain, on_request, node_send, setTimeout_get;
  preserves_steps;
  try (intros ?;
       match goal with
       | |- context [chain_put ?d ?bs] => destruct (chain_put d bs)
       end; reflexivity).

Ltac field_kept :=
  match goal with
  | |- ?f (snd (?m ?st)) = ?f ?st =>
      let H := fresh in
      assert (H : preserves f m) by run_preserves; exact (H st)
  end.

Lemma errors_kept c st :
  is_accessor c = false -> errors (snd (run_ c st)) = errors st.
Proof.
  destruct c; simpl is_accessor; try (intros Hfalse; discriminate Hfalse);
    intros _; field_kept.
Qed.

(** X5. What a call leaves alone.  The blocks of the store are written
    only by [put] and by the deliveries of a block, a requested block or a
    chain; [missing_blocks] only by the catch-all and the
    ["requested_block"] handler; [received_blocks] only by the latter;
    [chain_lengths] only by the catch-all handler; [errors] only by the
    three accessors; a retry is scheduled only by [get].  No call changes
    the name, the peers or the retry budget.  In particular reads never
    touch the store, and serving a request never does either. *)
Theorem calls_frame c st :
  (writes_chain c = false -> chain (snd (run_ c st)) = chain st) /\
  (writes_missing c = false ->
     missing_blocks (snd (run_ c st)) = missing_blocks st) /\
  (match c with
   | OnRequestedBlock _ _ => True
   | _ => received_blocks (snd (run_ c st)) = received_blocks st
   end) /\
  (match c with
   | OnFromAny _ _ => True
   | _ => chain_lengths (snd (run_ c st)) = chain_lengths st
   end) /\
  (is_accessor c = false -> errors (snd (run_ c st)) = errors st) /\
  (match c with
   | CGet _ => True
   | _ => timers (snd (run_ c st)) = timers st
   end) /\
  name (snd (run_ c st)) = name st /\
  peers (snd (run_ c st)) = peers st /\
  retries (snd (run_ c st)) = retries st.
Proof.
  destruct c; simpl writes_chain; simpl writes_missing; simpl is_accessor;
    repeat apply conj; try exact I;
    try (intros Hfalse; discriminate Hfalse); try (intros _); field_kept.
Qed.

(** X4. The retry counter never exceeds the budget: from a state where it
    does not, whatever is called or delivered, [tries] stays at most
    [retries], and [retries] keeps its value (3 on every instance the
    constructor builds). *)
Theorem budget_never_exceeded cs st :
  tries st <= retries st ->
  let st' := run_all chain_put chain_add chain_merge chain_compare chain_mapBlocks
               sortBlocks cs st in
  tries st' <= retries st' /\ retries st' = retries st.
Proof.
  intros Hle0 st'. unfold st'. clear st'. revert Hle0.
  revert st. induction cs as [| c cs IH]; intros st Hle; simpl; [auto |].
  destruct (run_tries chain_put chain_add chain_merge chain_compare chain_mapBlocks
              sortBlocks c st) as [Hr [Ht | [(_ & Hlt & Ht) | (_ & Ht)]]];
    (destruct (IH (snd (run_ c st))) as [H1 H2]; [lia |]; split; [exact H1 | congruence]).
Qed.

(** X6. The error log only grows, by at most one entry per call, and only
    in an accessor that then returns [undefined]. *)
Theorem errors_append_only c st :
  exists logged,
    errors (snd (run_ c st)) = errors st ++ logged /\
    length logged <= 1 /\
    (logged <> [] -> is_accessor c = true /\ fst (run_ c st) = Normal JUndefined).
Proof.
  destruct (is_accessor c) eqn:Hacc.
  - destruct c; try discriminate; simpl run.
    + destruct (get_cases k st) as
        [(b & d & _ & _ & _ & Hg) | [(_ & _ & Hg) | [(_ & _ & Hg) | (e & _ & Hg)]]];
        rewrite Hg; simpl;
        [exists [] | exists [] | exists [] | exists [e]];
        rewrite ?app_nil_r; simpl; repeat split; auto; congruence.
    + unfold get_history, try_catch, get_history_body, bind, read, lift.
      destruct (filter_c (key_is k) (chain st)) as [l | e]; simpl;
        [exists [] | exists [e]]; rewrite ?app_nil_r; simpl; repeat split; auto; congruence.
    + unfold get_all, try_catch, get_all_body, bind, read, lift.
      destruct (filter_latest ∅ (rev (map data (chain st)))) as [l | e]; simpl;
        [exists [] | exists [e]]; rewrite ?app_nil_r; simpl; repeat split; auto; congruence.
  - exists []. rewrite app_nil_r.
    split; [apply errors_kept, Hacc |]. split; [simpl; lia | congruence].
Qed.

End Frame.

Lemma budget_never_exceeded_witness :
  let st := run_all append_put append_add (fun _ bs => bs) (fun m _ => m)
              (fun _ => []) (fun bs => bs)
              [CGet "a"; CGet "b"; CGet "c"; CGet "d"; CPut "a" (VNum 1); CGet "a"; CGet "e"]
              (new_Ledger "n" [] ["p"]) in
  tries st <= retries st /\ retries st = 3.
Proof.
  apply (budget_never_exceeded append_put append_add (fun _ bs => bs) (fun m _ => m)
           (fun _ => []) (fun bs => bs)
           [CGet "a"; CGet "b"; CGet "c"; CGet "d"; CPut "a" (VNum 1); CGet "a"; CGet "e"]
           (new_Ledger "n" [] ["p"])).
  simpl. lia.
Defined.

(** ** A block without data *)

Lemma filter_c_throws k bs :
  well_formed bs \/ filter_c (key_is k) bs = Throw undefined_key.
Proof.
  induction bs as [| b bs [IH | IH]]; simpl.
  - left. constructor.
  - unfold key_is at 1. destruct (data b) as [d |] eqn:Hd; [| right; reflexivity].
    left. constructor; [rewrite Hd; eauto | exact IH].
  - right. unfold key_is at 1. destruct (data b); [| reflexivity].
    rewrite IH. reflexivity.
Qed.

Lemma filter_latest_throws entries : forall latest,
  Forall is_Some entries \/ filter_latest latest entries = Throw undefined_key.
Proof.
  induction entries as [| [e |] rest IH]; intros latest; simpl.
  - left. constructor.
  - destruct (IH ({[key e]} ∪ latest)) as [H | H].
    + left. constructor; [eauto | exact H].
    + right. rewrite H. reflexivity.
  - right. reflexivity.
Qed.

Lemma entries_well_formed bs : Forall is_Some (rev (map data bs)) -> well_formed bs.
Proof.
  intros H. apply Forall_rev in H. rewrite rev_involutive in H.
  unfold well_formed. induction bs as [| b bs IH]; [constructor |].
  simpl in H. inversion H; subst. constructor; auto.
Qed.

(** X7. One block without data disables [get_history] and [get_all] for
    every key: each call logs the [TypeError] and returns [undefined].
    [get] still answers for a key whose newest block lies above every
    such block, since its scan stops at the first match. *)
Theorem block_without_data k st :
  ~ well_formed (chain st) ->
  get_history k st = (Normal JUndefined, set_errors (errors st ++ [undefined_key]) st) /\
  get_all st = (Normal JUndefined, set_errors (errors st ++ [undefined_key]) st) /\
  (forall older b d newer,
     chain st = older ++ b :: newer -> data b = Some d -> key d = k -> absent k newer ->
     get k st = (Normal (JData d), set_tries 0 st)).
Proof.
  intros Hbad. split; [| split].
  - destruct (filter_c_throws k (chain st)) as [Hwf | Ht]; [contradiction |].
    unfold get_history, try_catch, get_history_body, bind, read, lift.
    rewrite Ht. reflexivity.
  - destruct (filter_latest_throws (rev (map data (chain st))) ∅) as [Hwf | Ht];
      [apply entries_well_formed in Hwf; contradiction |].
    unfold get_all, try_catch, get_all_body, bind, read, lift.
    rewrite Ht. reflexivity.
  - intros older b d newer Hc Hd Hk Hn.
    apply get_hit with b; [| exact Hd].
    unfold scan. rewrite Hc. apply find_newest with d; assumption.
Qed.

Lemma block_without_data_witness :
  let b1 := {| block_id := "1"; data := None |} in
  let b2 := {| block_id := "2"; data := Some {| key := "x"; value := VNum 1 |} |} in
  let st := new_Ledger "n" [b1; b2] ["p"] in
  get_history "x" st = (Normal JUndefined, set_errors [undefined_key] st) /\
  get_all st = (Normal JUndefined, set_errors [undefined_key] st) /\
  get "x" st = (Normal (JData {| key := "x"; value := VNum 1 |}), set_tries 0 st).
Proof.
  intros b1 b2 st.
  destruct (block_without_data "x" st) as (Hh & Ha & Hg).
  { intros Hwf. inversion Hwf as [| ? ? [d Hd] _]. discriminate Hd. }
  split; [exact Hh |]. split; [exact Ha |].
  apply (Hg [b1] b2 {| key := "x"; value := VNum 1 |} []);
    [reflexivity | reflexivity | reflexivity | constructor].
Defined.

(** ** The accessors agree *)

Lemma history_app k bs1 bs2 :
  history k (bs1 ++ bs2) = history k bs1 ++ history k bs2.
Proof.
  induction bs1 as [| b bs1 IH]; simpl; [reflexivity |].
  destruct (data b) as [d |]; [| exact IH].
  destruct (decide (key d = k)); [simpl; rewrite IH; reflexivity | exact IH].
Qed.

(** The newest-first scan finds the block whose data ends the history. *)
Lemma scan_last_history k bs :
  well_formed bs ->
  match find_c (key_is k) (rev bs) with
  | Normal (Some b) => exists d, data b = Some d /\ last (history k bs) = Some d
  | Normal None => history k bs = []
  | Throw _ => False
  end.
Proof.
  induction bs as [| b bs IH] using rev_ind; intros Hwf; [reflexivity |].
  apply Forall_app in Hwf. destruct Hwf as [Hwf Hb].
  inversion Hb as [| ? ? [d Hd] _]; subst.
  rewrite rev_app_distr, history_app. simpl.
  unfold key_is at 1. rewrite Hd.
  destruct (decide (key d = k)) as [Hk | Hk].
  - rewrite bool_decide_eq_true_2 by exact Hk.
    exists d. split; [exact Hd |]. apply last_snoc.
  - rewrite bool_decide_eq_false_2 by exact Hk. rewrite app_nil_r. apply IH, Hwf.
Qed.

(** X8. [get] and [get_history] agree on a store whose blocks all carry
    data: [get(k)] returns the data [d] exactly when [d] is the last
    element of [get_history(k)], and the history is empty exactly when no
    block holds [k]. *)
Theorem get_is_last_of_history k st :
  well_formed (chain st) ->
  get_history k st = (Normal (JList (history k (chain st))), st) /\
  (forall d, fst (get k st) = Normal (JData d) <->
             last (history k (chain st)) = Some d) /\
  (history k (chain st) = [] <-> absent k (chain st)).
Proof.
  intros Hwf. pose proof (scan_last_history k (chain st) Hwf) as Hscan.
  fold (scan k st) in Hscan.
  split; [| split].
  - destruct (filter_c_history k (chain st) Hwf) as (matching & Hf & Hm).
    unfold get_history, try_catch, get_history_body, bind, read, lift.
    rewrite Hf. unfold ret. rewrite Hm. reflexivity.
  - intros d.
    destruct (get_cases k st) as
      [(b & d' & Hs & Hd & _ & Hg) | [(Hs & _ & Hg) | [(Hs & _ & Hg) | (e & Hs & Hg)]]];
      rewrite Hs in Hscan; rewrite Hg; simpl.
    + destruct Hscan as (d2 & Hd2 & Hlast). rewrite Hlast.
      assert (d2 = d') by congruence. subst. split; intros [= ->]; reflexivity.
    + rewrite Hscan. simpl. split; discriminate.
    + rewrite Hscan. simpl. split; discriminate.
    + contradiction.
  - split.
    + intros Hnil. apply scan_none_iff.
      destruct (scan k st) as [[b |] | e]; [| reflexivity | contradiction].
      destruct Hscan as (d & _ & Hlast). rewrite Hnil in Hlast. discriminate.
    + intros Hab. rewrite (scan_absent k st Hab) in Hscan. exact Hscan.
Qed.

Lemma get_is_last_of_history_witness :
  let st := put_all (fun _ _ => "id") [("x", VNum 1); ("y", VNum 9); ("x", VNum 2)]
              (new_Ledger "n" [] ["p"]) in
  fst (get "x" st) = Normal (JData {| key := "x"; value := VNum 2 |}) /\
  absent "z" (chain st).
Proof.
  intros st.
  destruct (get_is_last_of_history "x" st) as (_ & Hlast & _);
    [repeat constructor; simpl; eauto |].
  destruct (get_is_last_of_history "z" st) as (_ & _ & Habs);
    [repeat constructor; simpl; eauto |].
  split; [apply Hlast; reflexivity | apply Habs; reflexivity].
Defined.

Lemma first_split_unique k (n1 : list Data) : forall n2 d1 d2 o1 o2,
  n1 ++ d1 :: o1 = n2 ++ d2 :: o2 ->
  key d1 = k -> key d2 = k ->
  ~ In k (map key n1) -> ~ In k (map key n2) ->
  d1 = d2.
Proof.
  induction n1 as [| e n1 IH]; intros n2 d1 d2 o1 o2 Heq H1 H2 Hn1 Hn2.
  - destruct n2 as [| e2 n2]; simpl in Heq.
    + congruence.
    + injection Heq as <- _. simpl in Hn2. tauto.
  - destruct n2 as [| e2 n2]; simpl in Heq.
    + injection Heq as -> _. simpl in Hn1. tauto.
    + injection Heq as <- Heq. simpl in Hn1, Hn2.
      apply (IH n2 d1 d2 o1 o2 Heq H1 H2); tauto.
Qed.

(** The scan over blocks, read on the list of their data. *)
Lemma find_first_entry k blocks : forall entries,
  map data blocks = map Some entries ->
  match find_c (key_is k) blocks with
  | Normal (Some b) =>
      exists d newer older,
        data b = Some d /\ key d = k /\
        entries = newer ++ d :: older /\ ~ In k (map key newer)
  | Normal None => ~ In k (map key entries)
  | Throw _ => False
  end.
Proof.
  induction blocks as [| b blocks IH]; intros entries Hm.
  - destruct entries; [simpl; tauto | discriminate].
  - destruct entries as [| e entries]; [discriminate |].
    simpl in Hm. injection Hm as Hb Hm. simpl.
    unfold key_is at 1. rewrite Hb.
    destruct (decide (key e = k)) as [Hk | Hk].
    + rewrite bool_decide_eq_true_2 by exact Hk.
      exists e, [], entries. simpl. tauto.
    + rewrite bool_decide_eq_false_2 by exact Hk.
      specialize (IH entries Hm).
      destruct (find_c (key_is k) blocks) as [[b' |] | err]; [| | exact IH].
      * destruct IH as (d & newer & older & Hd & Hkd & -> & Hn).
        exists d, (e :: newer), older. simpl. intuition congruence.
      * simpl. tauto.
Qed.

(** X9. [get_all] and [get] agree on a store whose blocks all carry data:
    an entry is in the result of [get_all()] exactly when [get] of its key
    returns that entry. *)
Theorem get_all_agrees_with_get st :
  well_formed (chain st) ->
  exists l,
    get_all st = (Normal (JList l), st) /\
    forall d, In d l <-> fst (get (key d) st) = Normal (JData d).
Proof.
  intros Hwf. eexists. split; [apply get_all_first_per_key, Hwf |].
  intros d. rewrite in_first_per_key.
  assert (Hm : map data (rev (chain st)) = map Some (newest_first (chain st))).
  { unfold newest_first. rewrite !map_rev, (well_formed_data _ Hwf). reflexivity. }
  pose proof (find_first_entry (key d) _ _ Hm) as Hfind.
  fold (scan (key d) st) in Hfind.
  destruct (get_cases (key d) st) as
    [(b & d' & Hs & Hd & Hk & Hg) | [(Hs & _ & Hg) | [(Hs & _ & Hg) | (e & Hs & Hg)]]];
    rewrite Hs in Hfind; rewrite Hg; simpl.
  - destruct Hfind as (d2 & newer & older & Hd2 & Hk2 & Heq & Hn).
    assert (d2 = d') by congruence. subst d2. split.
    + intros (newer' & older' & Heq' & Hn'). f_equal. f_equal.
      rewrite Heq in Heq'.
      apply (first_split_unique (key d) newer newer' d' d older older'); auto.
    + intros [= ->]. eauto.
  - split; [| discriminate].
    intros (newer & older & Heq & _). exfalso. apply Hfind.
    rewrite Heq, map_app. apply in_or_app. right. left. reflexivity.
  - split; [| discriminate].
    intros (newer & older & Heq & _). exfalso. apply Hfind.
    rewrite Heq, map_app. apply in_or_app. right. left. reflexivity.
  - contradiction.
Qed.

Lemma get_all_agrees_with_get_witness :
  let st := put_all (fun _ _ => "id") [("x", VNum 1); ("y", VNum 9); ("x", VNum 2)]
              (new_Ledger "n" [] ["p"]) in
  exists l,
    get_all st = (Normal (JList l), st) /\
    forall d, In d l <-> fst (get (key d) st) = Normal (JData d).
Proof.
  apply (get_all_agrees_with_get
           (put_all (fun _ _ => "id") [("x", VNum 1); ("y", VNum 9); ("x", VNum 2)]
              (new_Ledger "n" [] ["p"]))).
  repeat constructor; simpl; eauto.
Defined.

(** ** Retry chains that find their key *)

Lemma retry_chain_hit k worlds st b d :
  scan k st = Normal (Some b) -> data b = Some d ->
  retry_chain k worlds st = Some ([Normal (JData d)], set_tries 0 st).
Proof.
  intros Hs Hd. rewrite retry_chain_eq, (get_hit k st b d Hs Hd).
  rewrite bool_decide_eq_false_2 by (simpl; lia). reflexivity.
Qed.

(** X10. A read chain whose key appears in the store before one of its
    retries ends with a hit: after the misses of the call and of the
    retries before it, one key request each, the next retry returns the
    data to the timer, resets the counter to zero and schedules nothing
    further.  The caller of [get] has received [undefined]. *)
Theorem retry_chain_finds k w rest older b d newer : forall misses st,
  absent k (chain st) -> Forall (absent k) misses ->
  tries st + S (length misses) <= retries st ->
  w = older ++ b :: newer -> data b = Some d -> key d = k -> absent k newer ->
  exists st',
    retry_chain k (misses ++ w :: rest) st =
      Some (replicate (S (length misses)) (Normal JUndefined) ++ [Normal (JData d)], st') /\
    sent st' = sent st ++ replicate (S (length misses)) (key_request k) /\
    timers st' = timers st ++ retry_delays k (tries st) (S (length misses)) /\
    tries st' = 0 /\ chain st' = w.
Proof.
  induction misses as [| m misses IH]; intros st Hab Hms Hle Hw Hd Hk Hn.
  - simpl app. rewrite retry_chain_eq.
    rewrite (get_retry k st) by (auto using scan_absent; simpl in Hle; lia).
    rewrite bool_decide_eq_true_2 by (simpl; rewrite length_app; simpl; lia).
    rewrite (retry_chain_hit k rest (set_chain w (after_miss k st)) b d);
      [| unfold scan; simpl; rewrite Hw; apply find_newest with d; assumption | exact Hd].
    eexists. split; [reflexivity |]. simpl. unfold retry_delays. simpl. auto.
  - apply Forall_cons in Hms. destruct Hms as [Hm Hms'].
    destruct (IH (set_chain m (after_miss k st))) as (st' & Hrun & Hs & Ht & Htr & Hc);
      [exact Hm | exact Hms' | simpl in *; lia | exact Hw | exact Hd | exact Hk
       | exact Hn |].
    exists st'. simpl app. rewrite retry_chain_eq.
    rewrite (get_retry k st) by (auto using scan_absent; simpl in Hle; lia).
    rewrite bool_decide_eq_true_2 by (simpl; rewrite length_app; simpl; lia).
    rewrite Hrun. simpl in Hs, Ht.
    split; [reflexivity |].
    split; [rewrite Hs, <- app_assoc; reflexivity |].
    split; [rewrite Ht, <- app_assoc; reflexivity |].
    auto.
Qed.

Lemma retry_chain_finds_witness :
  let b := {| block_id := "1"; data := Some {| key := "z"; value := VNum 7 |} |} in
  let st := new_Ledger "n" [] ["p"] in
  exists st',
    retry_chain "z" [[]; [b]; []] st =
      Some ([Normal JUndefined; Normal JUndefined;
             Normal (JData {| key := "z"; value := VNum 7 |})], st') /\
    sent st' = [key_request "z"; key_request "z"] /\
    timers st' = [(500, "z"); (1000, "z")] /\
    tries st' = 0 /\ chain st' = [b].
Proof.
  intros b st.
  apply (retry_chain_finds "z" [b] [[]] [] b {| key := "z"; value := VNum 7 |} [] [[]] st);
    [constructor | repeat constructor | simpl; lia | reflexivity | reflexivity
     | reflexivity | constructor].
Defined.

(** ** The catch-all handler, case by case *)

Lemma forEach_request_block ids : forall st,
  forEach (fun id => node_send (Channel "request_block") (PBlockId id)) ids st =
  (Normal tt, set_sent (sent st ++ map request_block_message ids) st).
Proof.
  induction ids as [| id ids IH]; intros st; simpl.
  - unfold ret. rewrite app_nil_r, set_sent_same. reflexivity.
  - unfold bind at 1. unfold node_send at 1, modify. rewrite IH. simpl.
    rewrite <- app_assoc. reflexivity.
Qed.

Section CatchAll.

Variable chain_compare : BlockMap -> list Block -> list string.
Variable chain_mapBlocks : list Block -> BlockMap.

Local Abbreviation on_from_any_ := (on_from_any chain_compare chain_mapBlocks).

Lemma requestMissingBlocks_eq block_map st :
  requestMissingBlocks chain_compare block_map st =
    (Normal tt,
     set_sent (sent st ++ map request_block_message (chain_compare block_map (chain st)))
       (set_missing_blocks (chain_compare block_map (chain st)) st)).
Proof.
  unfold requestMissingBlocks, bind, modify, read.
  rewrite forEach_request_block. reflexivity.
Qed.

(** X14. The diff of a block map: [missing_blocks] becomes the result of
    [compare], and one block request per missing identifier is sent on the
    ["request_block"] channel, in the order of the result; an empty diff
    sends nothing.  The blocks recorded as received by an earlier session
    are kept, not reset. *)
Theorem missing_blocks_requested block_map st :
  requestMissingBlocks chain_compare block_map st =
    (Normal tt,
     set_sent (sent st ++ map request_block_message (chain_compare block_map (chain st)))
       (set_missing_blocks (chain_compare block_map (chain st)) st)) /\
  received_blocks (snd (requestMissingBlocks chain_compare block_map st)) =
    received_blocks st /\
  (chain_compare block_map (chain st) = [] ->
   sent (snd (requestMissingBlocks chain_compare block_map st)) = sent st).
Proof.
  rewrite requestMissingBlocks_eq. simpl. split; [reflexivity |]. split; [reflexivity |].
  intros ->. apply app_nil_r.
Qed.

(** X12. What a delivery to the catch-all handler does before it throws.
    A report of a non-zero length is recorded, whatever else the payload
    carries.  Otherwise a request for the block map is answered with the
    map of the store; otherwise a block map is diffed and the missing
    blocks are requested; otherwise, as for a report of length 0, nothing
    happens.  In each case the delivery then ends in the [TypeError] of
    [this.core.getPeers()]; [null] fails earlier, on [data.length]. *)
Theorem catch_all_effects id st :
  (forall n req bm,
     on_from_any_ (IObject (Some (S n)) req bm) id st =
       (Throw undefined_getPeers,
        set_chain_lengths (chain_lengths st ++ [{| peer := id; reported := S n |}]) st)) /\
  (forall len bm,
     len = None \/ len = Some 0 ->
     on_from_any_ (IObject len (Some "block_map") bm) id st =
       (Throw undefined_getPeers,
        set_sent (sent st ++ [block_map_reply id (chain_mapBlocks (chain st))]) st)) /\
  (forall len req m,
     len = None \/ len = Some 0 -> req <> Some "block_map" ->
     on_from_any_ (IObject len req (Some m)) id st =
       (Throw undefined_getPeers,
        set_sent (sent st ++ map request_block_message (chain_compare m (chain st)))
          (set_missing_blocks (chain_compare m (chain st)) st))) /\
  (forall len req,
     len = None \/ len = Some 0 -> req <> Some "block_map" ->
     on_from_any_ (IObject len req None) id st = (Throw undefined_getPeers, st)) /\
  on_from_any_ INull id st = (Throw null_length, st) /\
  on_from_any_ INotObject id st = (Throw undefined_getPeers, st).
Proof.
  repeat apply conj.
  - reflexivity.
  - intros len bm [-> | ->]; reflexivity.
  - intros len req m Hlen Hreq.
    unfold on_from_any, on_from_any_with, dispatch_payload, this_core.
    unfold bind at 1.
    assert (Hd : (match len with
                  | Some (S n) => addChainLength id (S n)
                  | _ => if bool_decide (req = Some "block_map")
                         then respondBlockMap chain_mapBlocks id
                         else requestMissingBlocks chain_compare m
                  end) st = requestMissingBlocks chain_compare m st).
    { rewrite bool_decide_eq_false_2 by exact Hreq. destruct Hlen as [-> | ->]; reflexivity. }
    rewrite Hd, requestMissingBlocks_eq. reflexivity.
  - intros len req Hlen Hreq.
    unfold on_from_any, on_from_any_with, dispatch_payload, this_core, bind.
    rewrite bool_decide_eq_false_2 by exact Hreq. destruct Hlen as [-> | ->]; reflexivity.
  - reflexivity.
  - reflexivity.
Qed.

End CatchAll.

(** X13. The selection among the reports: a block-map request goes to the
    peer of every report whose length exceeds the local one, in the order
    of the reports and once per report; reports of the local length or
    less are passed over, and when there is none longer nothing is sent. *)
Theorem select_chain_requests reports st :
  forEach selectChain reports st =
    (Normal tt, set_sent (sent st ++ map block_map_request (longer_peers st reports)) st) /\
  (Forall (fun r => reported r <= chain_length st) reports ->
   forEach selectChain reports st = (Normal tt, st)) /\
  (forall id, In id (longer_peers st reports) <->
     exists r, In r reports /\ peer r = id /\ chain_length st < reported r).
Proof.
  split; [apply forEach_selectChain |]. split.
  - intros Hall. rewrite forEach_selectChain.
    assert (Hnone : longer_peers st reports = []).
    { unfold longer_peers. induction Hall as [| r rs Hr _ IH]; simpl; [reflexivity |].
      rewrite bool_decide_eq_false_2 by lia. exact IH. }
    rewrite Hnone. simpl. rewrite app_nil_r, set_sent_same. reflexivity.
  - intros id. unfold longer_peers. rewrite in_map_iff. split.
    + intros (r & Hp & Hin). apply filter_In in Hin. destruct Hin as [Hin Hlt].
      apply bool_decide_eq_true in Hlt. eauto.
    + intros (r & Hin & Hp & Hlt). exists r. split; [exact Hp |].
      apply filter_In. split; [exact Hin | apply bool_decide_eq_true; exact Hlt].
Qed.

Lemma select_chain_requests_witness :
  let st := new_Ledger "n" four_blocks ["p1"; "p2"; "p3"] in
  forEach selectChain
    [{| peer := "p1"; reported := 4 |}; {| peer := "p2"; reported := 2 |}] st =
  (Normal tt, st).
Proof.
  intros st.
  apply (select_chain_requests
           [{| peer := "p1"; reported := 4 |}; {| peer := "p2"; reported := 2 |}] st).
  repeat constructor; simpl; lia.
Defined.

(** ** Sessions that cannot complete *)

Section Overshoot.

Variable chain_add : Block -> list Block -> list Block.
Variable sortBlocks : list Block -> list Block.

Local Abbreviation deliver_ := (deliver chain_add sortBlocks).
Local Abbreviation add_all_ := (add_all chain_add).

Lemma deliver_overshoot msgs : forall st,
  length (missing_blocks st) < length (received_blocks st) ->
  deliver_ msgs st =
  set_chain (add_all_ (from_others (name st) msgs) (chain st))
    (set_received_blocks (received_blocks st ++ from_others (name st) msgs) st).
Proof.
  induction msgs as [| [b from] msgs IH]; intros st Hlt.
  - simpl. rewrite app_nil_r. destruct st; reflexivity.
  - simpl deliver. rewrite requested_block_step.
    unfold received_after, chain_after. simpl from_others.
    destruct (decide (from = name st)) as [Heq | Hne].
    + rewrite decide_False by lia. simpl.
      rewrite IH by (simpl; exact Hlt). simpl. reflexivity.
    + rewrite decide_False by (rewrite length_app; simpl; lia). simpl.
      rewrite IH by (simpl; rewrite length_app; simpl; lia). simpl.
      rewrite <- app_assoc. reflexivity.
Qed.

(** X15. The handler compares the two counts for equality, so a session
    that holds more received than missing blocks can never complete:
    whatever is delivered afterwards is recorded and added, and the store
    is never sorted nor the lists emptied.  One requested block that
    arrives from a peer while nothing is missing is enough to get there. *)
Theorem session_overshoot msgs st :
  length (missing_blocks st) < length (received_blocks st) ->
  missing_blocks (deliver_ msgs st) = missing_blocks st /\
  received_blocks (deliver_ msgs st) =
    received_blocks st ++ from_others (name st) msgs /\
  chain (deliver_ msgs st) = add_all_ (from_others (name st) msgs) (chain st) /\
  length (missing_blocks (deliver_ msgs st)) < length (received_blocks (deliver_ msgs st)).
Proof.
  intros Hlt. rewrite (deliver_overshoot msgs st Hlt). simpl.
  repeat split. rewrite length_app. lia.
Qed.

End Overshoot.

Lemma session_overshoot_witness :
  let b := {| block_id := "1"; data := Some {| key := "x"; value := VNum 1 |} |} in
  let st := snd (on_requested_block append_add (@rev Block) b "p" (new_Ledger "n" [] ["p"])) in
  let after := deliver append_add (@rev Block) [(b, "p"); (b, "n"); (b, "q")] st in
  missing_blocks after = [] /\ received_blocks after = [b; b; b] /\
  chain after = [b; b; b].
Proof.
  intros b st after.
  destruct (session_overshoot append_add (@rev Block) [(b, "p"); (b, "n"); (b, "q")] st)
    as (Hm & Hr & Hc & _); [simpl; lia |].
  split; [exact Hm |]. split; [exact Hr | exact Hc].
Defined.

(** ** The other copy of the class *)

Section Part000Properties.

Variable chain_add : Block -> list Block -> list Block.
Variable chain_compare : BlockMap -> list Block -> list string.
Variable chain_mapBlocks : list Block -> BlockMap.
Variable sortBlocks : list Block -> list Block.

Local Abbreviation report_all_ := (part000_report_all chain_compare chain_mapBlocks).
Local Abbreviation deliver0_ := (part000_deliver chain_add sortBlocks).

Lemma part000_report_step n id s :
  Part000.on_from_any chain_compare chain_mapBlocks (length_report n) id s =
  (Normal tt,
   if bool_decide (chain_length (Part000.base s) < n) then
     {| Part000.base :=
          set_sent (sent (Part000.base s) ++ [block_map_request id]) (Part000.base s);
        Part000.target_length := Some n |}
   else s).
Proof.
  unfold Part000.on_from_any, length_report. simpl.
  destruct (bool_decide (chain_length (Part000.base s) < n)); reflexivity.
Qed.

Lemma last_target_cons previous len r reports :
  last_target previous len (r :: reports) =
  last_target (if bool_decide (len < reported r) then Some (reported r) else previous)
    len reports.
Proof.
  unfold last_target, longer_than. simpl.
  destruct (bool_decide (len < reported r)); [| reflexivity].
  rewrite last_cons.
  destruct (last (List.filter (fun r0 => bool_decide (len < reported r0)) reports));
    reflexivity.
Qed.

Lemma part000_report_all_cons r reports s :
  report_all_ (r :: reports) s =
  report_all_ reports
    (if bool_decide (chain_length (Part000.base s) < reported r) then
       {| Part000.base :=
            set_sent (sent (Part000.base s) ++ [block_map_request (peer r)])
              (Part000.base s);
          Part000.target_length := Some (reported r) |}
     else s).
Proof.
  change (report_all_ (r :: reports) s) with
    (report_all_ reports
       (snd (Part000.on_from_any chain_compare chain_mapBlocks
               (length_report (reported r)) (peer r) s))).
  rewrite part000_report_step. reflexivity.
Qed.

Lemma part000_deliver_cons b from msgs s :
  deliver0_ ((b, from) :: msgs) s =
  deliver0_ msgs (snd (Part000.on_requested_block chain_add sortBlocks b from s)).
Proof. reflexivity. Qed.

(** X16. The catch-all handler of [src/unnamed/part_000] is not gated:
    every report that exceeds the local length is answered at once with a
    block-map request to its peer, in the order of arrival and once per
    report, and overwrites [target_length], which ends up as the last such
    report and not the largest; the other reports change nothing. *)
Theorem part000_reports_ungated reports : forall s,
  sent (Part000.base (report_all_ reports s)) =
    sent (Part000.base s) ++
    map (fun r => block_map_request (peer r))
      (longer_than (chain_length (Part000.base s)) reports) /\
  Part000.target_length (report_all_ reports s) =
    last_target (Part000.target_length s) (chain_length (Part000.base s)) reports /\
  chain (Part000.base (report_all_ reports s)) = chain (Part000.base s).
Proof.
  induction reports as [| r reports IH]; intros s.
  - simpl. unfold last_target. simpl. rewrite app_nil_r. auto.
  - rewrite !part000_report_all_cons.
    rewrite last_target_cons. unfold longer_than. simpl List.filter.
    destruct (bool_decide (chain_length (Part000.base s) < reported r)) eqn:Hlt.
    + destruct (IH {| Part000.base :=
                        set_sent (sent (Part000.base s) ++ [block_map_request (peer r)])
                          (Part000.base s);
                      Part000.target_length := Some (reported r) |}) as (Hs & Ht & Hc).
      simpl in Hs, Ht, Hc. unfold chain_length in *. simpl in Hs, Ht.
      rewrite Hs, Ht, Hc. simpl. rewrite <- app_assoc. auto.
    + apply IH.
Qed.

Lemma part000_requested_step b from s :
  Part000.on_requested_block chain_add sortBlocks b from s =
  (Normal tt,
   {| Part000.base :=
        match Part000.target_length s with
        | Some t =>
            if bool_decide (t <= length (chain_after chain_add b from (Part000.base s)))
            then set_chain (sortBlocks (chain_after chain_add b from (Part000.base s)))
                   (Part000.base s)
            else set_chain (chain_after chain_add b from (Part000.base s)) (Part000.base s)
        | None => set_chain (chain_after chain_add b from (Part000.base s)) (Part000.base s)
        end;
      Part000.target_length := Part000.target_length s |}).
Proof.
  unfold Part000.on_requested_block, chain_after, chain_length.
  destruct s as [l t]. simpl.
  destruct (decide (from = name l)) as [Heq | Hne].
  - rewrite bool_decide_eq_false_2 by auto.
    destruct t as [t |]; [destruct (bool_decide (t <= length (chain l))) |];
      destruct l; reflexivity.
  - rewrite bool_decide_eq_true_2 by exact Hne.
    destruct t as [t |]; [simpl; destruct (bool_decide _) |]; reflexivity.
Qed.

(** X17. In [src/unnamed/part_000] the ["requested_block"] handler sorts
    only against [target_length]: on an instance that never received a
    longer report the blocks delivered by peers are added and the store is
    never sorted; with a target, a delivery sorts exactly when the store,
    after the block was added, has reached it, and the target stays, so
    that a later delivery may sort again. *)
Theorem part000_sorts_on_target :
  (forall msgs s,
     Part000.target_length s = None ->
     Part000.base (deliver0_ msgs s) =
       set_chain (add_all chain_add (from_others (name (Part000.base s)) msgs)
                    (chain (Part000.base s)))
         (Part000.base s) /\
     Part000.target_length (deliver0_ msgs s) = None) /\
  (forall b from s t,
     Part000.target_length s = Some t ->
     let s' := snd (Part000.on_requested_block chain_add sortBlocks b from s) in
     Part000.target_length s' = Some t /\
     (t <= length (chain_after chain_add b from (Part000.base s)) ->
        chain (Part000.base s') = sortBlocks (chain_after chain_add b from (Part000.base s))) /\
     (length (chain_after chain_add b from (Part000.base s)) < t ->
        chain (Part000.base s') = chain_after chain_add b from (Part000.base s))).
Proof.
  split.
  - induction msgs as [| [b from] msgs IH]; intros s Ht.
    + simpl. split; [destruct s as [l t]; destruct l; reflexivity | exact Ht].
    + rewrite !part000_deliver_cons, part000_requested_step, Ht. simpl snd.
      destruct (IH {| Part000.base :=
                        set_chain (chain_after chain_add b from (Part000.base s))
                          (Part000.base s);
                      Part000.target_length := None |} eq_refl) as [Hb Hn].
      rewrite Hb, Hn. split; [| reflexivity]. simpl.
      unfold chain_after. destruct (decide (from = name (Part000.base s))); reflexivity.
  - intros b from s t Ht s'. unfold s'. rewrite part000_requested_step, Ht. simpl.
    split; [reflexivity |]. split; intros Hle.
    + rewrite bool_decide_eq_true_2 by exact Hle. reflexivity.
    + rewrite bool_decide_eq_false_2 by lia. reflexivity.
Qed.

End Part000Properties.

Lemma part000_sorts_on_target_witness :
  let b := {| block_id := "1"; data := Some {| key := "x"; value := VNum 1 |} |} in
  let c := {| block_id := "2"; data := Some {| key := "y"; value := VNum 2 |} |} in
  let idle := {| Part000.base := new_Ledger "n" [] ["p"]; Part000.target_length := None |} in
  let aimed := {| Part000.base := new_Ledger "n" [b] ["p"]; Part000.target_length := Some 2 |} in
  chain (Part000.base (part000_deliver append_add (@rev Block) [(c, "p"); (b, "p")] idle))
    = [c; b] /\
  chain (Part000.base (snd (Part000.on_requested_block append_add (@rev Block) c "p" aimed)))
    = [c; b].
Proof.
  intros b c idle aimed.
  destruct (part000_sorts_on_target append_add (@rev Block)) as [Hidle Haimed].
  split.
  - destruct (Hidle [(c, "p"); (b, "p")] idle eq_refl) as [Hb _]. rewrite Hb. reflexivity.
  - destruct (Haimed c "p" aimed 2 eq_refl) as (_ & Hsort & _).
    rewrite Hsort; [reflexivity | simpl; lia].
Defined.

(** ** The length announced on connect *)

(** X18. When a peer connects, the ledger sends it the number of blocks it
    holds and changes nothing else.  The catch-all handler of the peer
    that receives this records the report only when the number is not
    zero: the announcement of a ledger with an empty store is dropped, so
    that it never counts among the collected reports. *)
Theorem connect_announces_length
    (chain_compare : BlockMap -> list Block -> list string)
    (chain_mapBlocks : list Block -> BlockMap) id st :
  on_connect id st =
    (Normal tt,
     set_sent (sent st ++ [{| target := ToPeer id; payload := PLength (length (chain st)) |}])
       st) /\
  (forall sender receiver,
     chain_lengths
       (snd (on_from_any chain_compare chain_mapBlocks
               (length_report (length (chain st))) sender receiver)) =
     if decide (chain st = []) then chain_lengths receiver
     else chain_lengths receiver ++
            [{| peer := sender; reported := length (chain st) |}]).
Proof.
  split; [reflexivity |].
  intros sender receiver. destruct (chain st) as [| b bs]; reflexivity.
Qed.

(** ** Read chains among other calls *)

Lemma node_send_no_key t p :
  is_key_request {| target := t; payload := p |} = false ->
  preserves key_requests (node_send t p).
Proof.
  intros Hp. apply preserves_modify. intros st.
  unfold key_requests. simpl. rewrite List.filter_app. simpl.
  rewrite Hp. apply app_nil_r.
Qed.

Lemma retry_among_eq chain_put chain_add chain_merge chain_compare chain_mapBlocks
    sortBlocks k gaps st :
  retry_among chain_put chain_add chain_merge chain_compare chain_mapBlocks sortBlocks
    k gaps st =
  (let '(r, st1) := get k st in
   if bool_decide (length (timers st) < length (timers st1)) then
     match gaps with
     | [] => None
     | cs :: gaps' =>
         match retry_among chain_put chain_add chain_merge chain_compare
                 chain_mapBlocks sortBlocks k gaps'
                 (run_all chain_put chain_add chain_merge chain_compare
                    chain_mapBlocks sortBlocks cs st1) with
         | None => None
         | Some (rs, st2) => Some (r :: rs, st2)
         end
     end
   else Some ([r], st1)).
Proof. destruct gaps; reflexivity. Qed.

Section AmongProperties.

Variable chain_put : Data -> list Block -> Completion Block * list Block.
Variable chain_add : Block -> list Block -> list Block.
Variable chain_merge : list Block -> list Block -> list Block.
Variable chain_compare : BlockMap -> list Block -> list string.
Variable chain_mapBlocks : list Block -> BlockMap.
Variable sortBlocks : list Block -> list Block.

Local Abbreviation run_ :=
  (run chain_put chain_add chain_merge chain_compare chain_mapBlocks sortBlocks).
Local Abbreviation run_all_ :=
  (run_all chain_put chain_add chain_merge chain_compare chain_mapBlocks sortBlocks).
Local Abbreviation calm_ :=
  (calm chain_put chain_add chain_merge chain_compare chain_mapBlocks sortBlocks).
Local Abbreviation retry_among_ :=
  (retry_among chain_put chain_add chain_merge chain_compare chain_mapBlocks sortBlocks).
Local Abbreviation undisturbed_ :=
  (undisturbed chain_put chain_add chain_merge chain_compare chain_mapBlocks sortBlocks).

(** Only [get] sets a timer or sends a key request. *)
Lemma other_calls_quiet c st :
  match c with
  | CGet _ => True
  | _ => timers (snd (run_ c st)) = timers st /\
         key_requests (snd (run_ c st)) = key_requests st
  end.
Proof.
  destruct c; try exact I; split;
    match goal with
    | |- ?f (snd (?m ?s)) = ?f ?s =>
        let H := fresh in
        assert (H : preserves f m);
        [ unfold run, handler, put, get_history, get_history_body, get_all,
            get_all_body, log_error, on_connect, on_from_any, on_from_any_with,
            dispatch_payload, this_core, addChainLength, respondBlockMap,
            requestBlockMap, requestMissingBlocks, on_request_block,
            on_requested_block, on_block, on_chain, on_request;
          preserves_steps;
          first [ apply node_send_no_key; reflexivity
                | unfold node_send; apply preserves_modify; intros; reflexivity
                | intros ?;
                  match goal with
                  | |- context [chain_put ?d ?bs] => destruct (chain_put d bs)
                  end; reflexivity ]
        | exact (H s) ]
    end.
Qed.

(** A call that leaves a counter above zero as it is sets no timer and
    sends no key request. *)
Lemma calm_step c st :
  0 < tries st -> tries (snd (run_ c st)) = tries st ->
  retries (snd (run_ c st)) = retries st /\
  timers (snd (run_ c st)) = timers st /\
  key_requests (snd (run_ c st)) = key_requests st.
Proof.
  intros Hpos Hsame.
  split; [apply (run_tries chain_put chain_add chain_merge chain_compare
                   chain_mapBlocks sortBlocks c st) |].
  pose proof (other_calls_quiet c st) as Hq.
  destruct c; try exact Hq.
  simpl run in *.
  destruct (get_cases k st) as
    [(b & d & _ & _ & _ & Hg) | [(_ & _ & Hg) | [(_ & _ & Hg) | (e & _ & Hg)]]];
    rewrite Hg in *; simpl in *; try lia; auto.
Qed.

Lemma calm_run_all cs : forall st,
  0 < tries st -> calm_ cs st ->
  tries (run_all_ cs st) = tries st /\
  retries (run_all_ cs st) = retries st /\
  timers (run_all_ cs st) = timers st /\
  key_requests (run_all_ cs st) = key_requests st.
Proof.
  induction cs as [| c cs IH]; intros st Hpos Hcalm; [simpl; auto |].
  destruct Hcalm as [Hsame Hcalm].
  destruct (calm_step c st Hpos Hsame) as (Hr & Ht & Hk).
  destruct (IH (snd (run_ c st))) as (H1 & H2 & H3 & H4); [lia | exact Hcalm |].
  simpl run_all. rewrite H1, H2, H3, H4. auto.
Qed.

Lemma key_requests_after_miss k st :
  key_requests (after_miss k st) = key_requests st ++ [key_request k].
Proof.
  unfold key_requests, after_miss. simpl. rewrite List.filter_app. reflexivity.
Qed.

(** An undisturbed read chain that never finds its key uses up what is
    left of the budget, one key request and one timer per attempt, and
    ends on the sentinel. *)
Lemma retry_among_misses k gaps : forall st,
  retries st = tries st + length gaps ->
  undisturbed_ k gaps st ->
  exists st',
    retry_among_ k gaps st =
      Some (replicate (length gaps) (Normal JUndefined) ++
            [Normal (JStr unable_to_find)], st') /\
    key_requests st' = key_requests st ++ replicate (length gaps) (key_request k) /\
    timers st' = timers st ++ retry_delays k (tries st) (length gaps) /\
    tries st' = retries st.
Proof.
  induction gaps as [| cs gaps IH]; intros st Hr Hun.
  - destruct Hun as [Hab _]. exists st. rewrite retry_among_eq.
    rewrite (get_exhausted k st) by (auto using scan_absent; simpl in Hr; lia).
    rewrite bool_decide_eq_false_2 by lia.
    unfold retry_delays. simpl. rewrite !app_nil_r. simpl in Hr. repeat split; lia.
  - destruct Hun as (Hab & Hcalm & Hun). simpl length in *.
    assert (Hget : get k st = (Normal JUndefined, after_miss k st))
      by (apply get_retry; [apply scan_absent, Hab | lia]).
    rewrite Hget in Hcalm, Hun. simpl snd in Hcalm, Hun.
    destruct (calm_run_all cs (after_miss k st)) as (Ht & Hre & Hti & Hk);
      [simpl; lia | exact Hcalm |].
    destruct (IH (run_all_ cs (after_miss k st))) as (st' & Hrun & Hs' & Ht' & Htr');
      [rewrite Ht, Hre; simpl; lia | exact Hun |].
    exists st'. rewrite retry_among_eq, Hget.
    rewrite bool_decide_eq_true_2 by (simpl; rewrite length_app; simpl; lia).
    rewrite Hrun.
    rewrite Hk, key_requests_after_miss in Hs'. rewrite Hti, Ht in Ht'. rewrite Hre in Htr'.
    simpl in Ht', Htr'.
    split; [reflexivity |].
    split; [rewrite Hs', <- app_assoc; reflexivity |].
    split; [rewrite Ht', <- app_assoc; reflexivity | exact Htr'].
Qed.

(** C3 (amended). Bounded retry termination: a [get(k)] that starts with
    the retry counter at zero and a budget of 3, finds no block under [k]
    at any attempt, and runs among calls and deliveries none of which
    changes the retry counter, sends exactly 3 key requests, schedules its
    3 retries after 500, 1000 and 1500 ms, and ends: the caller and the
    first two retries get [undefined], the last retry returns the sentinel
    ["unable to find."] and not an exception, and no further attempt is
    scheduled. *)
Theorem bounded_retry_undisturbed k gaps st :
  tries st = 0 -> retries st = 3 -> length gaps = 3 ->
  undisturbed chain_put chain_add chain_merge chain_compare chain_mapBlocks sortBlocks
    k gaps st ->
  exists st',
    retry_among chain_put chain_add chain_merge chain_compare chain_mapBlocks sortBlocks
      k gaps st =
      Some ([Normal JUndefined; Normal JUndefined; Normal JUndefined;
             Normal (JStr "unable to find.")], st') /\
    key_requests st' = key_requests st ++ [key_request k; key_request k; key_request k] /\
    timers st' = timers st ++ [(500, k); (1000, k); (1500, k)] /\
    tries st' = 3.
Proof.
  intros Ht Hr Hlen Hun.
  destruct (retry_among_misses k gaps st) as (st' & Hrun & Hs & Hti & Htr);
    [lia | exact Hun |].
  exists st'. rewrite Hrun, Hs, Hti, Htr, Hlen, Ht, Hr. repeat split.
Qed.

(** X11. The counter is shared by all keys: a hit for one key resets it,
    so the next read of another, absent key has its whole budget again,
    however much of it was used before.  Among calls and deliveries none
    of which changes the counter, that read sends [retries] key requests
    before it gives up. *)
Theorem hit_refills_budget a b blk d gaps st :
  scan b st = Normal (Some blk) -> data blk = Some d ->
  length gaps = retries st ->
  undisturbed chain_put chain_add chain_merge chain_compare chain_mapBlocks sortBlocks
    a gaps (snd (get b st)) ->
  get b st = (Normal (JData d), set_tries 0 st) /\
  exists st',
    retry_among chain_put chain_add chain_merge chain_compare chain_mapBlocks sortBlocks
      a gaps (snd (get b st)) =
      Some (replicate (retries st) (Normal JUndefined) ++
            [Normal (JStr unable_to_find)], st') /\
    key_requests st' = key_requests st ++ replicate (retries st) (key_request a).
Proof.
  intros Hs Hd Hlen Hun.
  rewrite (get_hit b st blk d Hs Hd) in *. split; [reflexivity |]. simpl snd in *.
  destruct (retry_among_misses a gaps (set_tries 0 st)) as (st' & Hrun & Hsent & _);
    [simpl; lia | exact Hun |].
  exists st'. rewrite <- Hlen. split; [exact Hrun | exact Hsent].
Qed.

End AmongProperties.

(** A read of the absent key ["z"] on a new instance, among a write, the
    delivery of a block, reads of the history and of all entries, and a
    connecting peer. *)
Lemma bounded_retry_undisturbed_witness :
  let blk := {| block_id := "1"; data := Some {| key := "b"; value := VNum 1 |} |} in
  let gaps := [[CPut "a" (VNum 1)];
               [OnBlock blk "p"; CGetHistory "z"; CGetAll];
               [OnConnect "p"]] in
  let st := new_Ledger "n" [] ["p"] in
  exists st',
    retry_among append_put append_add (fun _ bs => bs) (fun m _ => m)
      (fun _ => []) (fun bs => bs) "z" gaps st =
      Some ([Normal JUndefined; Normal JUndefined; Normal JUndefined;
             Normal (JStr "unable to find.")], st') /\
    key_requests st' = key_requests st ++ [key_request "z"; key_request "z"; key_request "z"] /\
    timers st' = timers st ++ [(500, "z"); (1000, "z"); (1500, "z")] /\
    tries st' = 3.
Proof.
  intros blk gaps st.
  apply (bounded_retry_undisturbed append_put append_add (fun _ bs => bs) (fun m _ => m)
           (fun _ => []) (fun bs => bs) "z" gaps st);
    [reflexivity | reflexivity | reflexivity |].
  vm_compute.
  repeat first [ split | reflexivity | apply Forall_nil | apply Forall_cons
               | (eexists; split; [reflexivity | discriminate]) ].
Defined.

(** After a read that used up the budget, a hit for ["b"] gives the read
    of the absent key ["a"] three key requests again; the read of ["q"]
    that runs before the last retry finds the budget used up and changes
    nothing. *)
Lemma hit_refills_budget_witness :
  let blk := {| block_id := "1"; data := Some {| key := "b"; value := VNum 1 |} |} in
  let gaps := [[CPut "c" (VNum 1)]; []; [CGet "q"]] in
  let st := set_chain [blk] exhausted_ledger in
  tries st = 3 /\
  exists st',
    retry_among append_put append_add (fun _ bs => bs) (fun m _ => m)
      (fun _ => []) (fun bs => bs) "a" gaps (snd (get "b" st)) =
      Some (replicate 3 (Normal JUndefined) ++ [Normal (JStr unable_to_find)], st') /\
    key_requests st' = key_requests st ++ replicate 3 (key_request "a").
Proof.
  intros blk gaps st. split; [reflexivity |].
  destruct (hit_refills_budget append_put append_add (fun _ bs => bs) (fun m _ => m)
              (fun _ => []) (fun bs => bs) "a" "b" blk {| key := "b"; value := VNum 1 |}
              gaps st) as (_ & H).
  - reflexivity.
  - reflexivity.
  - reflexivity.
  - vm_compute.
    repeat first [ split | reflexivity | apply Forall_nil | apply Forall_cons
                 | (eexists; split; [reflexivity | discriminate]) ].
  - exact H.
Defined.
